(** * nodejs-process: the memory-leak example and the routed HTTP server

    A shallow embedding of
    - [memory-leak-example.js]: the unbounded [leakyCache] and its server;
    - the "How to Fix Memory Leaks" code of [memory-leak-example.md]:
      [addToCache], [addToCacheWithTTL], the expiry interval and the
      shutdown [clear];
    - the routed server (switch on [req.url] inside try/catch).

    A JavaScript [Map] is an insertion-ordered association list with unique
    keys; [Date.now()] and the other readings of the environment are explicit
    arguments; a thrown exception is an abrupt completion that carries the
    response object as mutated so far. *)

From Stdlib Require Import List ZArith String Ascii Bool Lia DecimalString.
Import ListNotations.

(** Keys of a [Map] are compared by SameValueZero, which on the numbers and
    strings used as keys here is decidable equality. *)
Class KeyEq (K : Type) := key_eq_dec : forall a b : K, {a = b} + {a <> b}.

#[export] Instance Z_KeyEq : KeyEq Z := Z.eq_dec.
#[export] Instance string_KeyEq : KeyEq string := string_dec.

(** ** The JavaScript [Map] *)

Module JsMap.

Section Ops.
Context {K V : Type} `{KeyEq K}.

(** Entries in insertion order, oldest first. *)
Definition t : Type := list (K * V).

(** [new Map()] and the result of [m.clear()]. *)
Definition empty : t := [].

Definition clear (m : t) : t := empty.

(** [m.size] *)
Definition size (m : t) : nat := List.length m.

(** [m.keys()], as the list the iterator yields. *)
Definition keys (m : t) : list K := map fst m.

(** [m.get(k)], [None] for [undefined]. *)
Fixpoint get (k : K) (m : t) : option V :=
  match m with
  | [] => None
  | (k', v) :: rest => if key_eq_dec k k' then Some v else get k rest
  end.

(** [m.has(k)] *)
Definition has (k : K) (m : t) : bool :=
  match get k m with Some _ => true | None => false end.

(** [m.set(k, v)]: a present key keeps its place in the order and takes
    the new value; an absent key is appended. *)
Fixpoint set (k : K) (v : V) (m : t) : t :=
  match m with
  | [] => [(k, v)]
  | (k', v') :: rest =>
      if key_eq_dec k k' then (k, v) :: rest else (k', v') :: set k v rest
  end.

(** [m.delete(k)] *)
Fixpoint delete (k : K) (m : t) : t :=
  match m with
  | [] => []
  | (k', v') :: rest =>
      if key_eq_dec k k' then delete k rest else (k', v') :: delete k rest
  end.

(** [m.keys().next().value]: the oldest key, [None] for the [undefined]
    an exhausted iterator yields. *)
Definition first_key (m : t) : option K :=
  match m with
  | [] => None
  | (k, _) :: _ => Some k
  end.

(** A [Map] holds each key once. *)
Definition wf (m : t) : Prop := NoDup (keys m).

(** *** Lookup after update *)

Lemma get_set_eq (k : K) (v : V) (m : t) : get k (set k v m) = Some v.
Proof.
  induction m as [|[k' v'] rest IH]; simpl.
  - destruct (key_eq_dec k k); congruence.
  - destruct (key_eq_dec k k') as [->|Hne]; simpl.
    + destruct (key_eq_dec k' k'); congruence.
    + destruct (key_eq_dec k k'); congruence.
Qed.

Lemma get_set_ne (k k' : K) (v : V) (m : t) :
  k' <> k -> get k' (set k v m) = get k' m.
Proof.
  intros Hne. induction m as [|[k0 v0] rest IH]; simpl.
  - destruct (key_eq_dec k' k); congruence.
  - destruct (key_eq_dec k k0) as [->|Hk]; simpl.
    + destruct (key_eq_dec k' k0); congruence.
    + destruct (key_eq_dec k' k0); congruence.
Qed.

Lemma get_delete_eq (k : K) (m : t) : get k (delete k m) = None.
Proof.
  induction m as [|[k0 v0] rest IH]; simpl; auto.
  destruct (key_eq_dec k k0) as [->|Hk]; simpl; auto.
  destruct (key_eq_dec k k0); congruence.
Qed.

Lemma get_delete_ne (k k' : K) (m : t) :
  k' <> k -> get k' (delete k m) = get k' m.
Proof.
  intros Hne. induction m as [|[k0 v0] rest IH]; simpl; auto.
  destruct (key_eq_dec k k0) as [->|Hk]; simpl.
  - destruct (key_eq_dec k' k0); congruence.
  - destruct (key_eq_dec k' k0); congruence.
Qed.

Lemma get_In (k : K) (v : V) (m : t) : get k m = Some v -> In (k, v) m.
Proof.
  induction m as [|[k0 v0] rest IH]; simpl; [discriminate|].
  destruct (key_eq_dec k k0) as [->|Hk]; intros Hg.
  - left. congruence.
  - right. auto.
Qed.

Lemma get_None_keys (k : K) (m : t) : get k m = None <-> ~ In k (keys m).
Proof.
  induction m as [|[k0 v0] rest IH]; simpl.
  - tauto.
  - destruct (key_eq_dec k k0) as [->|Hk].
    + split; [discriminate | intros Hn; exfalso; apply Hn; now left].
    + rewrite IH. split.
      * intros Hn [He|Hi]; [congruence | contradiction].
      * intros Hn Hi. apply Hn. now right.
Qed.

Lemma In_get_wf (k : K) (v : V) (m : t) :
  wf m -> In (k, v) m -> get k m = Some v.
Proof.
  unfold wf. induction m as [|[k0 v0] rest IH]; simpl; [tauto|].
  intros Hnd [Heq|Hin].
  - inversion Heq; subst. destruct (key_eq_dec k k); congruence.
  - inversion Hnd as [|? ? Hnotin Hnd']; subst.
    destruct (key_eq_dec k k0) as [->|Hk]; auto.
    exfalso. apply Hnotin. change k0 with (fst (k0, v)).
    now apply in_map.
Qed.

Lemma has_true_iff (k : K) (m : t) : has k m = true <-> In k (keys m).
Proof.
  unfold has. destruct (get k m) eqn:Hg.
  - split; auto. intros _. apply get_In in Hg.
    change k with (fst (k, v)). now apply in_map.
  - apply get_None_keys in Hg. split; [discriminate | contradiction].
Qed.

(** *** Keys and size after update *)

Lemma keys_set_present (k : K) (v : V) (m : t) :
  has k m = true -> keys (set k v m) = keys m.
Proof.
  unfold has. induction m as [|[k0 v0] rest IH]; simpl; [discriminate|].
  destruct (key_eq_dec k k0) as [->|Hk]; simpl; auto.
  intros Hh. f_equal. auto.
Qed.

Lemma keys_set_absent (k : K) (v : V) (m : t) :
  has k m = false -> keys (set k v m) = keys m ++ [k].
Proof.
  unfold has. induction m as [|[k0 v0] rest IH]; simpl; auto.
  destruct (key_eq_dec k k0) as [->|Hk]; simpl; [discriminate|].
  intros Hh. f_equal. auto.
Qed.

Lemma size_set (k : K) (v : V) (m : t) :
  size (set k v m) = if has k m then size m else S (size m).
Proof.
  unfold size. destruct (has k m) eqn:Hh.
  - rewrite <- (length_map fst), <- (length_map fst m).
    fold (keys (set k v m)) (keys m). now rewrite keys_set_present.
  - rewrite <- (length_map fst), <- (length_map fst m).
    fold (keys (set k v m)) (keys m). rewrite keys_set_absent by assumption.
    rewrite length_app. simpl. lia.
Qed.


Lemma keys_delete (k : K) (m : t) :
  keys (delete k m) = List.filter (fun k' => if key_eq_dec k k' then false else true) (keys m).
Proof.
  induction m as [|[k0 v0] rest IH]; simpl; auto.
  destruct (key_eq_dec k k0); simpl; congruence.
Qed.

Lemma delete_absent (k : K) (m : t) : ~ In k (keys m) -> delete k m = m.
Proof.
  induction m as [|[k0 v0] rest IH]; simpl; auto.
  intros Hn. destruct (key_eq_dec k k0) as [->|Hk].
  - exfalso. apply Hn. now left.
  - f_equal. apply IH. intros Hi. apply Hn. now right.
Qed.

Lemma delete_head_wf (k : K) (v : V) (rest : t) :
  wf ((k, v) :: rest) -> delete k ((k, v) :: rest) = rest.
Proof.
  unfold wf. simpl. intros Hnd. inversion Hnd; subst.
  destruct (key_eq_dec k k); [|congruence].
  now apply delete_absent.
Qed.

(** *** Uniqueness of keys is kept *)

Lemma wf_empty : wf empty.
Proof. constructor. Qed.

Lemma wf_tail (p : K * V) (rest : t) : wf (p :: rest) -> wf rest.
Proof. unfold wf. simpl. intros Hnd. now inversion Hnd. Qed.

Lemma wf_delete (k : K) (m : t) : wf m -> wf (delete k m).
Proof.
  unfold wf. rewrite keys_delete. apply NoDup_filter.
Qed.

Lemma wf_set (k : K) (v : V) (m : t) : wf m -> wf (set k v m).
Proof.
  unfold wf. intros Hnd. destruct (has k m) eqn:Hh.
  - now rewrite keys_set_present.
  - rewrite keys_set_absent by assumption.
    apply NoDup_app; auto.
    + constructor; [simpl; tauto | constructor].
    + intros x Hx [<-|[]].
      apply has_true_iff in Hx. congruence.
Qed.

End Ops.

Arguments t : clear implicits.

End JsMap.

(** ** The fixes sketched in [memory-leak-example.md] *)

Module MemoryLeakGuide.

(** The object [{ value, expires }] that [addToCacheWithTTL] stores. *)
Record Entry (V : Type) : Type := mkEntry { value : V; expires : Z }.

Arguments mkEntry {V} _ _.
Arguments value {V} _.
Arguments expires {V} _.

(** The default of the parameter [ttlMs] of [addToCacheWithTTL]. *)
Definition default_ttlMs : Z := 3600000.

(** Times and durations are numbers of milliseconds, which JavaScript holds
    as doubles. Every integer of size up to 2^53 is a double, and the sum of
    two integer doubles is their sum as integers whenever that sum is of
    size up to 2^53; beyond it the double sum is rounded. *)
Definition safe_integer (z : Z) : Prop :=
  (- 9007199254740992 <= z <= 9007199254740992)%Z.

Section Cache.
Context {K V : Type} `{KeyEq K}.

(** The source fixes [MAX_CACHE_SIZE] to 1000. The functions below take
    it as a parameter, so that one statement covers the source's value and
    the small capacities used in examples. *)
Variable MAX_CACHE_SIZE : nat.

(** 1. Implement Cache Limits: [addToCache(key, value)].
    [leakyCache.keys().next().value] is [undefined] on an empty map, and
    [leakyCache.delete(undefined)] then removes nothing. *)
Definition addToCache {W : Type} (key : K) (value : W)
    (leakyCache : JsMap.t K W) : JsMap.t K W :=
  let leakyCache :=
    if MAX_CACHE_SIZE <=? JsMap.size leakyCache then
      match JsMap.first_key leakyCache with
      | Some oldestKey => JsMap.delete oldestKey leakyCache
      | None => leakyCache
      end
    else leakyCache in
  JsMap.set key value leakyCache.

(** 3. Implement TTL: [addToCacheWithTTL(key, value, ttlMs = 3600000)],
    called when [Date.now()] reads [now]; [ttlMs = None] is the omitted
    argument. [expires] is the sum of integers, which is what
    [Date.now() + ttlMs] stores when the sum is a [safe_integer]; the
    statements about the stored expiration carry that hypothesis. *)
Definition addToCacheWithTTL (now : Z) (key : K) (value : V)
    (ttlMs : option Z) (leakyCache : JsMap.t K (Entry V))
    : JsMap.t K (Entry V) :=
  let ttlMs := match ttlMs with Some ms => ms | None => default_ttlMs end in
  JsMap.set key {| value := value; expires := (now + ttlMs)%Z |} leakyCache.

(** The body of the [setInterval] callback, "Cleanup expired entries",
    run when [Date.now()] reads [now]. The loop walks the entries of the
    map and deletes from the same map; deleting the entry being visited
    does not disturb the iteration. *)
Definition cleanupExpired (now : Z) (leakyCache : JsMap.t K (Entry V))
    : JsMap.t K (Entry V) :=
  fold_left
    (fun cache '(key, entry) =>
       if (expires entry <? now)%Z then JsMap.delete key cache else cache)
    leakyCache leakyCache.

(** 4. Proper Cleanup: the effect of the SIGINT handler on the cache. *)
Definition cleanupOnSIGINT {W : Type} (leakyCache : JsMap.t K W)
    : JsMap.t K W :=
  JsMap.clear leakyCache.

(** Modelled from the spec: Get(key), a read operation that the source
    does not define. It returns "not found" ([None]) when the key is absent
    or its expiration has passed ([now >= expiration]); on such an expired
    hit it removes the entry. The result is the value found and the cache
    after the call. *)
Definition Get (now : Z) (key : K) (leakyCache : JsMap.t K (Entry V))
    : option V * JsMap.t K (Entry V) :=
  match JsMap.get key leakyCache with
  | None => (None, leakyCache)
  | Some entry =>
      if (expires entry <=? now)%Z
      then (None, JsMap.delete key leakyCache)
      else (Some (value entry), leakyCache)
  end.

(** Size() of the spec is [leakyCache.size]. *)
Definition Size {W : Type} (leakyCache : JsMap.t K W) : nat :=
  JsMap.size leakyCache.

(** A sequence of [addToCache] calls, first call first. *)
Definition addAllToCache {W : Type} (calls : list (K * W))
    (leakyCache : JsMap.t K W) : JsMap.t K W :=
  fold_left (fun cache '(key, value) => addToCache key value cache)
    calls leakyCache.

(** A sequence of Get calls, each at its own time; the results in call
    order and the cache after the last call. *)
Fixpoint getAll (calls : list (Z * K)) (leakyCache : JsMap.t K (Entry V))
    : list (option V) * JsMap.t K (Entry V) :=
  match calls with
  | [] => ([], leakyCache)
  | (now, key) :: rest =>
      let '(r, cache) := Get now key leakyCache in
      let '(rs, cache') := getAll rest cache in
      (r :: rs, cache')
  end.

(** *** [addToCache] *)

Lemma addToCache_below {W : Type} (key : K) (value : W) (m : JsMap.t K W) :
  JsMap.size m < MAX_CACHE_SIZE ->
  addToCache key value m = JsMap.set key value m.
Proof.
  intros Hlt. unfold addToCache.
  destruct (Nat.leb_spec MAX_CACHE_SIZE (JsMap.size m)); [lia | reflexivity].
Qed.

Lemma addToCache_full {W : Type} (key k0 : K) (value v0 : W)
    (rest : JsMap.t K W) :
  MAX_CACHE_SIZE <= JsMap.size ((k0, v0) :: rest) ->
  addToCache key value ((k0, v0) :: rest)
  = JsMap.set key value (JsMap.delete k0 ((k0, v0) :: rest)).
Proof.
  intros Hle. unfold addToCache.
  destruct (Nat.leb_spec MAX_CACHE_SIZE (JsMap.size ((k0, v0) :: rest)));
    [reflexivity | lia].
Qed.




(** *** Get *)

Lemma Get_absent (now : Z) (key : K) (m : JsMap.t K (Entry V)) :
  JsMap.get key m = None -> Get now key m = (None, m).
Proof. unfold Get. now intros ->. Qed.

Lemma Get_live (now : Z) (key : K) (entry : Entry V)
    (m : JsMap.t K (Entry V)) :
  JsMap.get key m = Some entry -> (now < expires entry)%Z ->
  Get now key m = (Some (value entry), m).
Proof.
  unfold Get. intros -> Hlt.
  destruct (Z.leb_spec (expires entry) now); [lia | reflexivity].
Qed.

Lemma Get_expired (now : Z) (key : K) (entry : Entry V)
    (m : JsMap.t K (Entry V)) :
  JsMap.get key m = Some entry -> (expires entry <= now)%Z ->
  Get now key m = (None, JsMap.delete key m).
Proof.
  unfold Get. intros -> Hle.
  destruct (Z.leb_spec (expires entry) now); [reflexivity | lia].
Qed.

Lemma Get_frame (now : Z) (key k : K) (m : JsMap.t K (Entry V)) :
  k <> key -> JsMap.get k (snd (Get now key m)) = JsMap.get k m.
Proof.
  intros Hne. unfold Get. destruct (JsMap.get key m) as [entry|]; auto.
  destruct (expires entry <=? now)%Z; simpl; auto.
  now apply JsMap.get_delete_ne.
Qed.

(** *** The expiry interval *)

(** Whether the loop meets an entry under key [k] whose [expires] is below
    [now]. *)
Definition expired_key (now : Z) (k : K) (entries : list (K * Entry V))
    : bool :=
  existsb
    (fun '(k', entry) =>
       if key_eq_dec k k' then (expires entry <? now)%Z else false)
    entries.

Definition cleanup_step (now : Z) (cache : JsMap.t K (Entry V))
    (p : K * Entry V) : JsMap.t K (Entry V) :=
  let '(key, entry) := p in
  if (expires entry <? now)%Z then JsMap.delete key cache else cache.

Lemma cleanupExpired_fold (now : Z) (m : JsMap.t K (Entry V)) :
  cleanupExpired now m = fold_left (cleanup_step now) m m.
Proof.
  unfold cleanupExpired. f_equal.
Qed.

Lemma get_cleanup_fold (now : Z) (k : K) (entries : list (K * Entry V)) :
  forall cache : JsMap.t K (Entry V),
    JsMap.get k (fold_left (cleanup_step now) entries cache)
    = if expired_key now k entries then None else JsMap.get k cache.
Proof.
  induction entries as [|[k' e'] entries IH]; intros cache; simpl; auto.
  rewrite IH. destruct (expired_key now k entries) eqn:Hrest.
  - now rewrite orb_true_r.
  - rewrite orb_false_r. destruct (key_eq_dec k k') as [->|Hne].
    + destruct (expires e' <? now)%Z; auto. apply JsMap.get_delete_eq.
    + destruct (expires e' <? now)%Z; auto. now apply JsMap.get_delete_ne.
Qed.

Lemma In_delete (k : K) (p : K * Entry V) (m : JsMap.t K (Entry V)) :
  In p (JsMap.delete k m) -> In p m /\ fst p <> k.
Proof.
  induction m as [|[k0 v0] rest IH]; simpl; [tauto|].
  destruct (key_eq_dec k k0) as [->|Hne].
  - intros Hin. destruct (IH Hin). auto.
  - intros [<-|Hin]; simpl.
    + split; auto.
    + destruct (IH Hin). auto.
Qed.

Lemma In_cleanup_fold (now : Z) (p : K * Entry V)
    (entries : list (K * Entry V)) :
  forall cache : JsMap.t K (Entry V),
    In p (fold_left (cleanup_step now) entries cache) ->
    In p cache /\ expired_key now (fst p) entries = false.
Proof.
  induction entries as [|[k' e'] entries IH]; intros cache; simpl; auto.
  intros Hin. destruct (IH _ Hin) as [Hc Hrest]. rewrite Hrest, orb_false_r.
  destruct (expires e' <? now)%Z eqn:Hexp.
  - apply In_delete in Hc. destruct Hc as [Hc Hne]. split; auto.
    destruct (key_eq_dec (fst p) k'); congruence.
  - split; auto. now destruct (key_eq_dec (fst p) k').
Qed.

Lemma expired_key_false (now : Z) (k : K) (entry : Entry V)
    (entries : list (K * Entry V)) :
  expired_key now k entries = false -> In (k, entry) entries ->
  (now <= expires entry)%Z.
Proof.
  unfold expired_key. intros Hex Hin.
  destruct (existsb_exists
              (fun '(k', e) =>
                 if key_eq_dec k k' then (expires e <? now)%Z else false)
              entries) as [_ Hback].
  destruct (Z.ltb_spec (expires entry) now) as [Hlt|Hge]; auto.
  assert (Htrue : existsb
            (fun '(k', e) =>
               if key_eq_dec k k' then (expires e <? now)%Z else false)
            entries = true).
  { apply Hback. exists (k, entry). split; auto.
    destruct (key_eq_dec k k); [|congruence].
    now apply Z.ltb_lt. }
  congruence.
Qed.

Lemma expired_key_true (now : Z) (k : K) (entries : list (K * Entry V)) :
  expired_key now k entries = true ->
  exists entry, In (k, entry) entries /\ (expires entry < now)%Z.
Proof.
  unfold expired_key. intros Hex. apply existsb_exists in Hex.
  destruct Hex as [[k' e] [Hin Hp]].
  destruct (key_eq_dec k k') as [->|]; [|discriminate].
  exists e. split; auto. now apply Z.ltb_lt.
Qed.

(** *** Every operation keeps the keys unique *)

Lemma wf_addToCache {W : Type} (key : K) (value : W) (m : JsMap.t K W) :
  JsMap.wf m -> JsMap.wf (addToCache key value m).
Proof.
  intros Hwf. unfold addToCache. apply JsMap.wf_set.
  destruct (MAX_CACHE_SIZE <=? JsMap.size m); auto.
  destruct (JsMap.first_key m); auto using JsMap.wf_delete.
Qed.

Lemma wf_addToCacheWithTTL (now : Z) (key : K) (value : V)
    (ttlMs : option Z) (m : JsMap.t K (Entry V)) :
  JsMap.wf m -> JsMap.wf (addToCacheWithTTL now key value ttlMs m).
Proof. intros Hwf. unfold addToCacheWithTTL. now apply JsMap.wf_set. Qed.

Lemma wf_Get (now : Z) (key : K) (m : JsMap.t K (Entry V)) :
  JsMap.wf m -> JsMap.wf (snd (Get now key m)).
Proof.
  intros Hwf. unfold Get. destruct (JsMap.get key m) as [entry|]; auto.
  destruct (expires entry <=? now)%Z; simpl; auto using JsMap.wf_delete.
Qed.

Lemma wf_cleanupExpired (now : Z) (m : JsMap.t K (Entry V)) :
  JsMap.wf m -> JsMap.wf (cleanupExpired now m).
Proof.
  rewrite cleanupExpired_fold. generalize m at 1 3.
  induction m as [|[k e] rest IH]; intros cache Hwf; simpl; auto.
  apply IH. destruct (expires e <? now)%Z; auto using JsMap.wf_delete.
Qed.

End Cache.

(** The value the source gives the bound. *)
Definition MAX_CACHE_SIZE : nat := 1000.


(** *** Statements about the bounded cache with expiry *)

Section Claims.
Context {K V : Type} `{KeyEq K}.


(** C2: a key stored by [addToCacheWithTTL] at time [now] expires at
    [now + ttlMs], for sums that are safe integers. Get at a time strictly
    before the expiration returns the stored value and leaves the cache as
    it is; Get at or after the expiration returns "not found" although the
    entry was still in the cache (no sweep ran), and removes the entry. *)
Theorem get_follows_expiration (now : Z) (key : K) (value : V)
    (ttlMs : option Z) (m : JsMap.t K (Entry V)) (t : Z) :
  let expiration :=
    (now + match ttlMs with Some ms => ms | None => default_ttlMs end)%Z in
  safe_integer expiration ->
  let cache := addToCacheWithTTL now key value ttlMs m in
  JsMap.get key cache = Some (mkEntry value expiration) /\
  ((t < expiration)%Z -> Get t key cache = (Some value, cache)) /\
  ((expiration <= t)%Z ->
     Get t key cache = (None, JsMap.delete key cache) /\
     JsMap.has key (snd (Get t key cache)) = false).
Proof.
  intros expiration Hsafe cache.
  assert (Hget : JsMap.get key cache = Some (mkEntry value expiration)).
  { unfold cache, addToCacheWithTTL. apply JsMap.get_set_eq. }
  split; [exact Hget|]. split.
  - intros Hlt. now rewrite (Get_live t key _ cache Hget).
  - intros Hle. rewrite (Get_expired t key _ cache Hget) by assumption.
    split; [reflexivity|]. simpl. unfold JsMap.has.
    now rewrite JsMap.get_delete_eq.
Qed.

(** C3: when the entry count equals the capacity, [addToCache] deletes
    exactly the oldest entry and then sets the new one: the result is the
    entries after the oldest, in their order, with the new entry set. Get of
    the evicted key is "not found"; Get of the new key and of every other
    key of the cache returns its value until it expires. *)
Theorem put_at_capacity_evicts_oldest (capacity : nat) (key : K)
    (entry : Entry V) (m : JsMap.t K (Entry V)) :
  JsMap.wf m ->
  Size m = capacity ->
  let cache := addToCache capacity key entry m in
  cache = JsMap.set key entry (tl m) /\
  (forall k0 now, JsMap.first_key m = Some k0 -> key <> k0 ->
     Get now k0 cache = (None, cache)) /\
  (forall now, (now < expires entry)%Z ->
     Get now key cache = (Some (value entry), cache)) /\
  (forall k e now, k <> key -> JsMap.first_key m <> Some k ->
     JsMap.get k m = Some e -> (now < expires e)%Z ->
     Get now k cache = (Some (value e), cache)).
Proof.
  intros Hwf Hsize cache.
  assert (Hcache : cache = JsMap.set key entry (tl m)).
  { unfold cache. destruct m as [|[k0 e0] rest].
    - unfold addToCache. simpl. now destruct (capacity <=? 0).
    - rewrite addToCache_full by (unfold Size in Hsize; lia).
      now rewrite JsMap.delete_head_wf. }
  split; [exact Hcache|]. rewrite Hcache. repeat split.
  - intros k0 now Hfirst Hne. apply Get_absent.
    rewrite JsMap.get_set_ne by auto.
    destruct m as [|[k1 e1] rest]; [discriminate|].
    simpl in Hfirst. inversion Hfirst; subst k1. simpl.
    apply JsMap.get_None_keys. unfold JsMap.wf in Hwf. simpl in Hwf.
    now inversion Hwf.
  - intros now Hlt. apply Get_live; auto. apply JsMap.get_set_eq.
  - intros k e now Hne Hfirst Hget Hlt. apply Get_live; auto.
    rewrite JsMap.get_set_ne by assumption.
    destruct m as [|[k1 e1] rest]; [discriminate|].
    simpl in *. destruct (key_eq_dec k k1); congruence.
Qed.

(** C4, as amended: after the expiry interval has run at time [now], no
    remaining entry has [expires < now]; every entry with [expires < now] is
    gone, whether or not a Get ever touched it, and every entry with
    [expires >= now] is still there with its value. *)
Theorem cleanup_removes_expired (now : Z) (m : JsMap.t K (Entry V)) :
  (forall k e, In (k, e) (cleanupExpired now m) -> (now <= expires e)%Z) /\
  (forall k e, JsMap.get k m = Some e -> (expires e < now)%Z ->
     JsMap.get k (cleanupExpired now m) = None) /\
  (JsMap.wf m -> forall k e, JsMap.get k m = Some e ->
     (now <= expires e)%Z -> JsMap.get k (cleanupExpired now m) = Some e).
Proof.
  rewrite cleanupExpired_fold. repeat split.
  - intros k e Hin. apply In_cleanup_fold in Hin. destruct Hin as [Hin Hex].
    now apply (expired_key_false now k e m).
  - intros k e Hget Hlt. rewrite get_cleanup_fold.
    destruct (expired_key now k m) eqn:Hex; auto.
    apply JsMap.get_In in Hget.
    pose proof (expired_key_false now k e m Hex Hget). lia.
  - intros Hwf k e Hget Hge. rewrite get_cleanup_fold.
    destruct (expired_key now k m) eqn:Hex; auto.
    apply expired_key_true in Hex. destruct Hex as [e' [Hin Hlt]].
    apply (JsMap.In_get_wf k e' m Hwf) in Hin.
    assert (e' = e) by congruence. subst. lia.
Qed.

(** C5, as amended: [addToCache] on a key that is already present, in a
    cache holding fewer entries than the capacity, leaves Size() unchanged,
    replaces the entry (value and expiration) and leaves the order of the
    keys as it was: the entry keeps its place. A following Get returns the
    new value until the new expiration. Concretely, on the empty cache and
    for any capacity, Put(x, 1) then Put(x, 2) leaves Size() unchanged and
    Get(x) returns 2. *)
Theorem overwrite_updates_in_place (capacity : nat) (key : K)
    (e1 e2 : Entry V) (m : JsMap.t K (Entry V)) :
  (JsMap.has key m = true -> Size m < capacity ->
   let cache := addToCache capacity key e2 m in
   Size cache = Size m /\
   JsMap.get key cache = Some e2 /\
   JsMap.keys cache = JsMap.keys m /\
   (forall now, (now < expires e2)%Z ->
      Get now key cache = (Some (value e2), cache))) /\
  (let c1 := addToCache capacity key e1 JsMap.empty in
   let c2 := addToCache capacity key e2 c1 in
   Size c2 = Size c1 /\
   (forall now, (now < expires e2)%Z ->
      Get now key c2 = (Some (value e2), c2))).
Proof.
  split.
  - intros Hhas Hlt cache. unfold cache, Size in *.
    rewrite addToCache_below by assumption.
    rewrite JsMap.size_set, Hhas, JsMap.keys_set_present by assumption.
    repeat split; auto using JsMap.get_set_eq.
    intros now Hnow. apply Get_live; auto using JsMap.get_set_eq.
  - assert (Hc1 : addToCache capacity key e1 JsMap.empty = [(key, e1)]).
    { unfold addToCache. simpl. now destruct (capacity <=? 0). }
    assert (Hc2 : addToCache capacity key e2 [(key, e1)] = [(key, e2)]).
    { unfold addToCache. simpl.
      destruct (capacity <=? 1); simpl;
        destruct (key_eq_dec key key); simpl; congruence. }
    cbv zeta. rewrite Hc1, Hc2. split; [reflexivity|].
    intros now Hnow. apply Get_live; auto.
    simpl. destruct (key_eq_dec key key); congruence.
Qed.

(** C6: no operation has a failure outcome. [addToCache] performs the
    insertion on every input, full cache included (the key then maps to the
    entry given), and so does [addToCacheWithTTL]; Get answers a missing key
    and an expired key with "not found", which is a result and not an
    error. *)
Theorem operations_always_succeed (capacity : nat) (now : Z) (key : K)
    (entry : Entry V) (m : JsMap.t K (Entry V)) :
  JsMap.get key (addToCache capacity key entry m) = Some entry /\
  (forall value ttlMs,
     JsMap.has key (addToCacheWithTTL now key value ttlMs m) = true) /\
  (JsMap.get key m = None -> Get now key m = (None, m)) /\
  (forall e, JsMap.get key m = Some e -> (expires e <= now)%Z ->
     fst (Get now key m) = None).
Proof.
  repeat split.
  - unfold addToCache. apply JsMap.get_set_eq.
  - intros value ttlMs. unfold addToCacheWithTTL, JsMap.has.
    now rewrite JsMap.get_set_eq.
  - apply Get_absent.
  - intros e Hget Hle. now rewrite (Get_expired now key e m Hget Hle).
Qed.

(** C7: after [leakyCache.clear()], whatever the cache held, Size() is 0
    and every Get of any sequence of Get calls, for any keys at any times,
    returns "not found" and leaves the cache empty. *)
Theorem clear_then_get_not_found (m : JsMap.t K (Entry V))
    (calls : list (Z * K)) :
  let cache := cleanupOnSIGINT m in
  Size cache = 0 /\
  getAll calls cache = (map (fun _ => None) calls, cache).
Proof.
  cbv zeta. unfold cleanupOnSIGINT, JsMap.clear. split; [reflexivity|].
  induction calls as [|[now key] calls IH]; simpl; auto.
  unfold JsMap.empty in *. now rewrite IH.
Qed.

(** The operations on the cache, for statements that range over all of
    them. *)
Inductive Op : Type :=
| OpPut (key : K) (entry : Entry V)
| OpPutTTL (key : K) (value : V) (ttlMs : option Z)
| OpGet (key : K)
| OpSweep
| OpClear.

Definition exec (capacity : nat) (now : Z) (op : Op)
    (m : JsMap.t K (Entry V)) : JsMap.t K (Entry V) :=
  match op with
  | OpPut key entry => addToCache capacity key entry m
  | OpPutTTL key value ttlMs => addToCacheWithTTL now key value ttlMs m
  | OpGet key => snd (Get now key m)
  | OpSweep => cleanupExpired now m
  | OpClear => cleanupOnSIGINT m
  end.

(** The key a Put or a Get is aimed at. *)
Definition target (op : Op) : option K :=
  match op with
  | OpPut key _ | OpPutTTL key _ _ | OpGet key => Some key
  | OpSweep | OpClear => None
  end.

(** [k] is the oldest key and [op] is an [addToCache] on a full cache. *)
Definition capacity_evicted (capacity : nat) (op : Op)
    (m : JsMap.t K (Entry V)) (k : K) : Prop :=
  match op with
  | OpPut _ _ => capacity <= Size m /\ JsMap.first_key m = Some k
  | _ => False
  end.

(** [op] is the Get of [k], or the sweep, and finds the entry of [k]
    expired. *)
Definition ttl_expired (now : Z) (op : Op) (m : JsMap.t K (Entry V))
    (k : K) : Prop :=
  match op with
  | OpGet key =>
      k = key /\ exists e, JsMap.get k m = Some e /\ (expires e <= now)%Z
  | OpSweep => exists e, JsMap.get k m = Some e /\ (expires e < now)%Z
  | _ => False
  end.

Lemma addToCache_frame (capacity : nat) (key k : K) (entry : Entry V)
    (m : JsMap.t K (Entry V)) :
  k <> key ->
  ~ (capacity <= Size m /\ JsMap.first_key m = Some k) ->
  JsMap.get k (addToCache capacity key entry m) = JsMap.get k m.
Proof.
  intros Hne Hnot. unfold addToCache, Size in *.
  rewrite JsMap.get_set_ne by assumption.
  destruct (Nat.leb_spec capacity (JsMap.size m)) as [Hle|Hlt]; auto.
  destruct m as [|[k0 v0] rest]; auto.
  cbn [JsMap.first_key]. apply JsMap.get_delete_ne.
  intros ->. apply Hnot. split; auto.
Qed.

(** C8: an entry [e] under a key [k] that a Put or a Get is not aimed at,
    and that is not the oldest entry at a Put on a full cache, is still
    there after the operation with the same value and expiration, expired or
    not. An entry that disappears in an operation was either the oldest at a
    Put on a full cache, or found expired by the Get aimed at it or by the
    sweep, or the cache was cleared; the first two never hold in the same
    operation. *)
Theorem entries_leave_for_one_reason (capacity : nat) (now : Z) (op : Op)
    (m : JsMap.t K (Entry V)) (k : K) (e : Entry V) :
  JsMap.wf m -> JsMap.get k m = Some e ->
  (op <> OpSweep -> op <> OpClear -> target op <> Some k ->
   ~ capacity_evicted capacity op m k ->
   JsMap.get k (exec capacity now op m) = Some e) /\
  (JsMap.get k (exec capacity now op m) = None ->
   capacity_evicted capacity op m k \/ ttl_expired now op m k \/
   op = OpClear) /\
  ~ (capacity_evicted capacity op m k /\ ttl_expired now op m k).
Proof.
  intros Hwf Hget. repeat split.
  - intros Hs Hc Ht Hev. destruct op as [key entry|key v ttl|key| |];
      simpl in *; try congruence.
    + rewrite addToCache_frame; auto. congruence.
    + unfold addToCacheWithTTL. rewrite JsMap.get_set_ne; congruence.
    + rewrite Get_frame; congruence.
  - intros Hgone. destruct op as [key entry|key v ttl|key| |]; simpl in *.
    + left. destruct (key_eq_dec k key) as [->|Hne].
      { unfold addToCache in Hgone. rewrite JsMap.get_set_eq in Hgone.
        discriminate. }
      destruct (Nat.leb_spec capacity (Size m)) as [Hle|Hlt].
      * destruct m as [|[k0 v0] rest]; [discriminate|].
        destruct (key_eq_dec k0 k) as [->|Hk0]; [now split|].
        rewrite addToCache_frame in Hgone; try congruence.
        simpl. intros [_ Heq]. congruence.
      * rewrite addToCache_frame in Hgone; try congruence; try lia.
    + exfalso. unfold addToCacheWithTTL in Hgone.
      destruct (key_eq_dec k key) as [->|Hne].
      * rewrite JsMap.get_set_eq in Hgone. discriminate.
      * rewrite JsMap.get_set_ne in Hgone; congruence.
    + right. left. destruct (key_eq_dec k key) as [->|Hne].
      * split; auto. exists e. split; auto.
        destruct (Z.leb_spec (expires e) now) as [Hle|Hlt]; auto.
        rewrite (Get_live now key e m Hget Hlt) in Hgone. simpl in Hgone.
        congruence.
      * rewrite Get_frame in Hgone; congruence.
    + right. left. rewrite cleanupExpired_fold, get_cleanup_fold in Hgone.
      destruct (expired_key now k m) eqn:Hex; [|congruence].
      apply expired_key_true in Hex. destruct Hex as [e' [Hin Hlt]].
      apply (JsMap.In_get_wf k e' m Hwf) in Hin.
      exists e'. split; auto.
    + right. right. reflexivity.
  - intros [Hev Hex]. destruct op; simpl in *; auto.
Qed.

End Claims.

(** *** The statements at concrete caches *)

Section Concrete.
Open Scope string_scope.

Ltac wf_by_computation :=
  unfold JsMap.wf; simpl; repeat constructor; simpl; intuition discriminate.


(** Put(key="x", value=1, ttl=10) at time 0: Get("x") at time 9 returns 1,
    at time 11 "not found". *)
Lemma get_follows_expiration_witness :
  let cache := addToCacheWithTTL 0 "x" 1%Z (Some 10%Z) JsMap.empty in
  safe_integer (0 + 10) /\
  ((9 < 0 + 10)%Z /\ Get 9 "x" cache = (Some 1%Z, cache)) /\
  ((0 + 10 <= 11)%Z /\ fst (Get 11 "x" cache) = None /\
   JsMap.has "x" (snd (Get 11 "x" cache)) = false).
Proof.
  cbv zeta.
  assert (Hsafe : safe_integer (0 + 10)) by (unfold safe_integer; lia).
  split; [exact Hsafe|]. split.
  - split; [lia|].
    apply (get_follows_expiration 0 "x" 1%Z (Some 10%Z) JsMap.empty 9 Hsafe).
    lia.
  - split; [lia|].
    destruct (get_follows_expiration 0 "x" 1%Z (Some 10%Z) JsMap.empty 11
                Hsafe) as [_ [_ Hexp]].
    destruct Hexp as [Hget Hhas]; [lia|].
    split; [now rewrite Hget | exact Hhas].
Defined.

(** Capacity 2 and Puts of A, B, C: the cache after A and B is full; C
    evicts A. Get(A) is "not found", Get(B) and Get(C) return their
    values. *)
Lemma put_at_capacity_evicts_oldest_witness :
  let eA := mkEntry 1%Z 100%Z in
  let eB := mkEntry 2%Z 100%Z in
  let eC := mkEntry 3%Z 100%Z in
  let full := addAllToCache 2 [("A", eA); ("B", eB)] JsMap.empty in
  let cache := addToCache 2 "C" eC full in
  JsMap.wf full /\ Size full = 2 /\
  Get 0 "A" cache = (None, cache) /\
  Get 0 "B" cache = (Some 2%Z, cache) /\
  Get 0 "C" cache = (Some 3%Z, cache).
Proof.
  cbv zeta.
  change (addAllToCache 2
            [("A", mkEntry 1%Z 100%Z); ("B", mkEntry 2%Z 100%Z)] JsMap.empty)
    with [("A", mkEntry 1%Z 100%Z); ("B", mkEntry 2%Z 100%Z)].
  assert (Hwf : JsMap.wf
                  [("A", mkEntry 1%Z 100%Z); ("B", mkEntry 2%Z 100%Z)])
    by wf_by_computation.
  destruct (put_at_capacity_evicts_oldest 2 "C" (mkEntry 3%Z 100%Z)
              [("A", mkEntry 1%Z 100%Z); ("B", mkEntry 2%Z 100%Z)]
              Hwf eq_refl)
    as [_ [HA [HC HB]]].
  split; [exact Hwf|]. split; [reflexivity|]. split; [|split].
  - apply (HA "A" 0%Z); [reflexivity | discriminate].
  - apply (HB "B" (mkEntry 2%Z 100%Z) 0%Z);
      [discriminate | discriminate | reflexivity | reflexivity].
  - apply (HC 0%Z). reflexivity.
Defined.

Lemma cleanup_removes_expired_witness :
  let ex := mkEntry 1%Z 10%Z in
  let ey := mkEntry 2%Z 20%Z in
  let m := [("x", ex); ("y", ey)] in
  JsMap.wf m /\
  (In ("y", ey) (cleanupExpired 15 m) /\ (15 <= expires ey)%Z) /\
  ((JsMap.get "x" m = Some ex /\ (expires ex < 15)%Z) /\
   JsMap.get "x" (cleanupExpired 15 m) = None) /\
  ((JsMap.get "y" m = Some ey /\ (15 <= expires ey)%Z) /\
   JsMap.get "y" (cleanupExpired 15 m) = Some ey).
Proof.
  cbv zeta.
  assert (Hwf : JsMap.wf
                  [("x", mkEntry 1%Z 10%Z); ("y", mkEntry 2%Z 20%Z)])
    by wf_by_computation.
  destruct (cleanup_removes_expired 15
              [("x", mkEntry 1%Z 10%Z); ("y", mkEntry 2%Z 20%Z)])
    as [Hleft [Hgone Hkept]].
  split; [exact Hwf|]. split; [|split].
  - assert (Hin : In ("y", mkEntry 2%Z 20%Z)
                    (cleanupExpired 15
                       [("x", mkEntry 1%Z 10%Z); ("y", mkEntry 2%Z 20%Z)]))
      by (left; reflexivity).
    split; [exact Hin | exact (Hleft _ _ Hin)].
  - split; [split; reflexivity|].
    apply (Hgone "x" (mkEntry 1%Z 10%Z)); reflexivity.
  - split; [split; [reflexivity | simpl; lia]|].
    apply (Hkept Hwf "y" (mkEntry 2%Z 20%Z)); [reflexivity | simpl; lia].
Defined.

(** C4, as stated, fails at the boundary: the interval tests
    [entry.expires < now], so an entry whose expiration equals [now] is
    still in the cache after the sweep, with expiration <= now. *)
Lemma sweep_keeps_entry_expiring_now :
  exists k e,
    In (k, e) (cleanupExpired 10 [("x", mkEntry 1%Z 10%Z)]) /\
    (expires e <= 10)%Z.
Proof.
  exists "x", (mkEntry 1%Z 10%Z). split; [left; reflexivity | simpl; lia].
Qed.

Lemma overwrite_updates_in_place_witness :
  let m := [("x", mkEntry 1%Z 100%Z); ("y", mkEntry 5%Z 100%Z)] in
  let e2 := mkEntry 2%Z 200%Z in
  let cache := addToCache 3 "x" e2 m in
  (JsMap.has "x" m = true /\ Size m < 3) /\
  Size cache = Size m /\
  JsMap.get "x" cache = Some e2 /\
  JsMap.keys cache = ["x"; "y"] /\
  ((0 < expires e2)%Z /\ Get 0 "x" cache = (Some 2%Z, cache)).
Proof.
  cbv zeta.
  destruct (overwrite_updates_in_place 3 "x" (mkEntry 1%Z 100%Z)
              (mkEntry 2%Z 200%Z)
              [("x", mkEntry 1%Z 100%Z); ("y", mkEntry 5%Z 100%Z)])
    as [Hgen _].
  destruct Hgen as [Hsize [Hget [Hkeys HGet]]];
    [reflexivity | simpl; lia |].
  split; [split; [reflexivity | simpl; lia]|].
  split; [exact Hsize|]. split; [exact Hget|]. split; [exact Hkeys|].
  split; [reflexivity|]. apply (HGet 0%Z). reflexivity.
Defined.

(** C5, as stated, fails twice.
    Capacity 3, Puts of A, B, then A again: the second Put of A leaves the
    keys in the order A, B, so after Puts of C and D it is A that has been
    evicted, not B.
    Capacity 2, Puts of A, B, then B again: the cache is full, the oldest
    entry A is deleted before B is set, and Size() drops from 2 to 1. *)
Lemma overwrite_keeps_place_and_can_shrink :
  let e := fun v : Z => mkEntry v 100%Z in
  let c3 := addAllToCache 3 [("A", e 1%Z); ("B", e 2%Z)] JsMap.empty in
  let c3' := addToCache 3 "A" (e 3%Z) c3 in
  let c3'' := addAllToCache 3 [("C", e 4%Z); ("D", e 5%Z)] c3' in
  let c2 := addAllToCache 2 [("A", e 1%Z); ("B", e 2%Z)] JsMap.empty in
  (JsMap.has "A" c3 = true /\
   JsMap.keys c3' = ["A"; "B"] /\ JsMap.keys c3' <> ["B"; "A"] /\
   fst (Get 0 "A" c3'') = None /\ fst (Get 0 "B" c3'') = Some 2%Z) /\
  (JsMap.has "B" c2 = true /\
   Size c2 = 2 /\ Size (addToCache 2 "B" (e 3%Z) c2) = 1).
Proof.
  vm_compute. repeat split; discriminate.
Qed.

Lemma operations_always_succeed_witness :
  let ex := mkEntry 1%Z 10%Z in
  let m := [("x", ex)] in
  JsMap.get "z" (addToCache 1 "z" (mkEntry 2%Z 20%Z) m)
  = Some (mkEntry 2%Z 20%Z) /\
  (JsMap.get "y" m = None /\ Get 11 "y" m = (None, m)) /\
  ((JsMap.get "x" m = Some ex /\ (expires ex <= 11)%Z) /\
   fst (Get 11 "x" m) = None).
Proof.
  cbv zeta. split; [|split].
  - apply (operations_always_succeed 1 0%Z "z" (mkEntry 2%Z 20%Z)
             [("x", mkEntry 1%Z 10%Z)]).
  - split; [reflexivity|].
    apply (operations_always_succeed 1 11%Z "y" (mkEntry 2%Z 20%Z)
             [("x", mkEntry 1%Z 10%Z)]).
    reflexivity.
  - split; [split; [reflexivity | simpl; lia]|].
    destruct (operations_always_succeed 1 11%Z "x" (mkEntry 2%Z 20%Z)
                [("x", mkEntry 1%Z 10%Z)]) as [_ [_ [_ Hexp]]].
    apply (Hexp (mkEntry 1%Z 10%Z)); [reflexivity | simpl; lia].
Defined.

Lemma entries_leave_for_one_reason_witness :
  let eA := mkEntry 1%Z 100%Z in
  let eB := mkEntry 2%Z 5%Z in
  let m := [("A", eA); ("B", eB)] in
  let put := OpPut "C" (mkEntry 3%Z 100%Z) in
  (JsMap.wf m /\ JsMap.get "B" m = Some eB /\ JsMap.get "A" m = Some eA) /\
  JsMap.get "B" (exec 2 50 put m) = Some eB /\
  (JsMap.get "A" (exec 2 50 put m) = None /\
   capacity_evicted 2 put m "A") /\
  ~ (capacity_evicted 2 put m "A" /\ ttl_expired 50 put m "A").
Proof.
  cbv zeta.
  assert (Hwf : JsMap.wf
                  [("A", mkEntry 1%Z 100%Z); ("B", mkEntry 2%Z 5%Z)])
    by wf_by_computation.
  assert (HgB : JsMap.get "B"
                  [("A", mkEntry 1%Z 100%Z); ("B", mkEntry 2%Z 5%Z)]
                = Some (mkEntry 2%Z 5%Z)) by reflexivity.
  assert (HgA : JsMap.get "A"
                  [("A", mkEntry 1%Z 100%Z); ("B", mkEntry 2%Z 5%Z)]
                = Some (mkEntry 1%Z 100%Z)) by reflexivity.
  destruct (entries_leave_for_one_reason 2 50 (OpPut "C" (mkEntry 3%Z 100%Z))
              [("A", mkEntry 1%Z 100%Z); ("B", mkEntry 2%Z 5%Z)]
              "B" (mkEntry 2%Z 5%Z) Hwf HgB) as [HB _].
  destruct (entries_leave_for_one_reason 2 50 (OpPut "C" (mkEntry 3%Z 100%Z))
              [("A", mkEntry 1%Z 100%Z); ("B", mkEntry 2%Z 5%Z)]
              "A" (mkEntry 1%Z 100%Z) Hwf HgA) as [_ [HA Hnot]].
  split; [split; [exact Hwf | split; reflexivity]|].
  split; [|split].
  - apply HB; try discriminate. simpl. intros [_ Heq]. discriminate.
  - split; [reflexivity|]. simpl. split; [lia | reflexivity].
  - exact Hnot.
Defined.

End Concrete.

End MemoryLeakGuide.

(** ** Statements with exceptions and a mutable object in scope *)

Module Js.

(** How a statement completes: normally with a value, or by a thrown
    error. *)
Inductive completion (A : Type) : Type :=
| Normal (a : A)
| Throw (error : string).

Arguments Normal {A} _.
Arguments Throw {A} _.

(** A statement that may mutate an object of type [S]; the object is
    returned as mutated so far also when the statement throws. *)
Definition M (S A : Type) : Type := S -> completion A * S.

Definition ret {S A : Type} (a : A) : M S A := fun s => (Normal a, s).

Definition throw {S A : Type} (error : string) : M S A :=
  fun s => (Throw error, s).

Definition bind {S A B : Type} (c : M S A) (k : A -> M S B) : M S B :=
  fun s =>
    match c s with
    | (Normal a, s') => k a s'
    | (Throw error, s') => (Throw error, s')
    end.

(** [try { body } catch (error) { handler }] *)
Definition try_catch {S A : Type} (body : M S A) (handler : string -> M S A)
    : M S A :=
  fun s =>
    match body s with
    | (Normal a, s') => (Normal a, s')
    | (Throw error, s') => handler error s'
    end.

Definition modify {S : Type} (f : S -> S) : M S unit :=
  fun s => (Normal tt, f s).

Definition read {S A : Type} (f : S -> A) : M S A :=
  fun s => (Normal (f s), s).

End Js.

Notation "c1 ;; c2" := (Js.bind c1 (fun _ => c2))
  (at level 61, right associativity).
Notation "x <- c1 ;; c2" := (Js.bind c1 (fun x => c2))
  (at level 61, c1 at next level, right associativity).

(** ** [JSON.stringify] on the objects the servers send *)

Module Json.

#[local] Set Warnings "-register-all".

Inductive value : Type :=
| JString (s : string)
| JInt (n : Z)
| JDouble (text : string)
| JObject (members : list (string * value)).

(** A number that is an integer prints in decimal. A number that is not
    (the seconds of [process.uptime()]) is carried by the text
    [JSON.stringify] prints for it. *)
Definition string_of_Z (n : Z) : string :=
  DecimalString.NilZero.string_of_int (Z.to_int n).

Definition dquote : ascii := ascii_of_nat 34.
Definition backslash : ascii := ascii_of_nat 92.

Definition hex_digit (n : nat) : ascii :=
  ascii_of_nat (if n <? 10 then 48 + n else 87 + n).

(** QuoteJSONString, one code unit at a time. *)
Definition escape_char (c : ascii) : string :=
  let n := nat_of_ascii c in
  let esc (d : ascii) := String backslash (String d EmptyString) in
  if n =? 34 then esc dquote
  else if n =? 92 then esc backslash
  else if n =? 8 then esc "b"%char
  else if n =? 12 then esc "f"%char
  else if n =? 10 then esc "n"%char
  else if n =? 13 then esc "r"%char
  else if n =? 9 then esc "t"%char
  else if n <? 32 then
    String backslash
      (String "u"%char
         (String "0"%char
            (String "0"%char
               (String (hex_digit (n / 16))
                  (String (hex_digit (n mod 16)) EmptyString)))))
  else String c EmptyString.

Fixpoint escape (s : string) : string :=
  match s with
  | EmptyString => EmptyString
  | String c rest => (escape_char c ++ escape rest)%string
  end.

Definition quote (s : string) : string :=
  String dquote (escape s ++ String dquote EmptyString)%string.

Fixpoint stringify (v : value) : string :=
  match v with
  | JString s => quote s
  | JInt n => string_of_Z n
  | JDouble text => text
  | JObject members =>
      let fix go (ms : list (string * value)) : string :=
        match ms with
        | [] => EmptyString
        | (name, v) :: rest =>
            (quote name ++ ":" ++ stringify v ++
             match rest with
             | [] => EmptyString
             | _ :: _ => "," ++ go rest
             end)%string
        end in
      ("{" ++ go members ++ "}")%string
  end.


End Json.

(** ** The response object of [http] *)

Module Http.

Record ServerResponse : Type := mkServerResponse {
  statusCode : Z;
  headers : JsMap.t string string;
  headersSent : bool;
  body : string;
  finished : bool
}.

(** The response object a request listener receives. *)
Definition fresh : ServerResponse :=
  {| statusCode := 200; headers := JsMap.empty; headersSent := false;
     body := EmptyString; finished := false |}.

(** [res.setHeader(name, value)] throws once the headers are sent. *)
Definition setHeader (name value : string) : Js.M ServerResponse unit :=
  fun res =>
    if headersSent res
    then Js.throw "ERR_HTTP_HEADERS_SENT"%string res
    else
      Js.modify
        (fun res =>
           {| statusCode := statusCode res;
              headers := JsMap.set name value (headers res);
              headersSent := headersSent res;
              body := body res;
              finished := finished res |}) res.

(** [res.statusCode = code] *)
Definition set_statusCode (code : Z) : Js.M ServerResponse unit :=
  Js.modify
    (fun res =>
       {| statusCode := code;
          headers := headers res;
          headersSent := headersSent res;
          body := body res;
          finished := finished res |}).

(** [res.writeHead(code, headers)] throws once the headers are sent. *)
Definition writeHead (code : Z) (hdrs : list (string * string))
    : Js.M ServerResponse unit :=
  fun res =>
    if headersSent res
    then Js.throw "ERR_HTTP_HEADERS_SENT"%string res
    else
      Js.modify
        (fun res =>
           {| statusCode := code;
              headers :=
                fold_left (fun h '(name, value) => JsMap.set name value h)
                  hdrs (headers res);
              headersSent := true;
              body := body res;
              finished := finished res |}) res.

(** [res.end(data)] on a response of which nothing was sent yet, as a
    listener receives it: sends the headers and the body [data] and finishes
    the response. What Node does when part of the response went out before
    (the status line already sent stays, the data is appended to what was
    written, a finished response emits an error event) is not modelled. *)
Definition end_ (data : string) : Js.M ServerResponse unit :=
  Js.modify
    (fun res =>
       if finished res then res
       else
         {| statusCode := statusCode res;
            headers := headers res;
            headersSent := true;
            body := data;
            finished := true |}).

End Http.

(** ** The routed server *)

Module RoutedServer.

Import Json Http.
Open Scope string_scope.

(** What one request reads from its environment. Console output is not
    modelled. *)
Record Env : Type := mkEnv {
  isoString : string;   (* new Date().toISOString() *)
  uptime : string       (* process.uptime(), as JSON.stringify prints it *)
}.

Definition homeData (env : Env) : value :=
  JObject [("message", JString "Welcome to the homepage");
           ("timestamp", JString (isoString env))].

Definition aboutData : value :=
  JObject [("message", JString "About page"); ("version", JString "1.0.0")].

Definition statusData (env : Env) : value :=
  JObject [("status", JString "operational");
           ("uptime", JDouble (uptime env));
           ("timestamp", JString (isoString env))].

Definition notFoundData : value :=
  JObject [("error", JString "Not Found");
           ("message", JString "The requested resource was not found")].

Definition internalErrorData : value :=
  JObject [("error", JString "Internal Server Error");
           ("message", JString "An unexpected error occurred")].

(** The [switch (req.url)] of the listener. *)
Definition route (env : Env) (url : string) : Js.M ServerResponse unit :=
  if url =? "/" then
    set_statusCode 200 ;; end_ (stringify (homeData env))
  else if url =? "/about" then
    set_statusCode 200 ;; end_ (stringify aboutData)
  else if url =? "/api/status" then
    set_statusCode 200 ;; end_ (stringify (statusData env))
  else
    set_statusCode 404 ;; end_ (stringify notFoundData).

(** The listener given to [http.createServer], on a request with
    [req.url = url]. *)
Definition requestListener (env : Env) (url : string)
    : Js.M ServerResponse unit :=
  Js.try_catch
    (setHeader "Content-Type" "application/json" ;;
     setHeader "X-Content-Type-Options" "nosniff" ;;
     setHeader "X-Frame-Options" "DENY" ;;
     setHeader "X-XSS-Protection" "1; mode=block" ;;
     route env url)
    (fun error =>
       set_statusCode 500 ;; end_ (stringify internalErrorData)).

(** The response after the listener has run on a fresh response object. *)
Definition respond (env : Env) (url : string) : ServerResponse :=
  snd (requestListener env url fresh).

Definition is_route (url : string) : Prop :=
  url = "/" \/ url = "/about" \/ url = "/api/status".

(** The members of the object sent for [url]. *)
Definition sent_members (env : Env) (url : string)
    : list (string * value) :=
  let members v := match v with JObject ms => ms | _ => [] end in
  if url =? "/" then members (homeData env)
  else if url =? "/about" then members aboutData
  else if url =? "/api/status" then members (statusData env)
  else members notFoundData.

Lemma respond_eq (env : Env) (url : string) :
  requestListener env url fresh
  = (Js.Normal tt,
     {| statusCode := if (url =? "/") || (url =? "/about")
                         || (url =? "/api/status") then 200 else 404;
        headers := [("Content-Type", "application/json");
                    ("X-Content-Type-Options", "nosniff");
                    ("X-Frame-Options", "DENY");
                    ("X-XSS-Protection", "1; mode=block")];
        headersSent := true;
        body := stringify (JObject (sent_members env url));
        finished := true |}).
Proof.
  unfold requestListener, route, sent_members, Js.try_catch, Js.bind.
  destruct (url =? "/"); [reflexivity|].
  destruct (url =? "/about"); [reflexivity|].
  destruct (url =? "/api/status"); reflexivity.
Qed.



End RoutedServer.

(** ** [memory-leak-example.js] *)

Module MemoryLeakExample.

Import Json Http.
Open Scope string_scope.

(** [s.repeat(count)] *)
Definition String_repeat (s : string) (count : N) : string :=
  N.iter count (String.append s) EmptyString.

(** The object [data] that [createMemoryLeak] stores. *)
Record LeakData : Type := mkLeakData {
  timestamp : string;
  largeString : string;
  randomData : string
}.

(** The result of [process.memoryUsage()], in bytes. *)
Record MemoryUsage : Type := mkMemoryUsage {
  rss : Z;
  heapTotal : Z;
  heapUsed : Z;
  external : Z
}.

(** What one request reads from its environment, in the order it reads
    it. Console output is not modelled. *)
Record Env : Type := mkEnv {
  dataTimestamp : string;      (* new Date().toISOString(), in createMemoryLeak *)
  random36 : string;           (* Math.random().toString(36) *)
  dateNow : Z;                 (* Date.now() *)
  memoryUsage : MemoryUsage;   (* process.memoryUsage() *)
  responseTimestamp : string   (* new Date().toISOString(), in the response *)
}.

Definition Cache : Type := JsMap.t Z LeakData.

(** [function createMemoryLeak()], as its effect on [leakyCache]. *)
Definition createMemoryLeak (env : Env) (leakyCache : Cache) : Cache :=
  let data :=
    {| timestamp := dataTimestamp env;
       largeString := String_repeat "x" (1024 * 1024);
       randomData := String_repeat (random36 env) 1000 |} in
  JsMap.set (dateNow env) data leakyCache.

(** [`${Math.round(bytes / 1024 / 1024)}MB`] for the byte counts a process
    reports, integers from 0 to below 2^53: on them the two divisions by a
    power of two are exact, [Math.round] rounds halves up, and the template
    literal prints the rounded figure with all its digits. Numbers from
    1e21 on, which the template literal prints in exponent notation, are
    outside this definition. *)
Definition megabytes (bytes : Z) : string :=
  (string_of_Z ((bytes + 524288) / 1048576) ++ "MB")%string.

(** The listener works on the module variable [leakyCache] and on the
    response object. *)
Definition World : Type := (Cache * ServerResponse)%type.

Definition on_res {A : Type} (c : Js.M ServerResponse A) : Js.M World A :=
  fun w =>
    let '(r, res) := c (snd w) in (r, (fst w, res)).

Definition on_cache (f : Cache -> Cache) : Js.M World unit :=
  Js.modify (fun w => (f (fst w), snd w)).

Definition cacheSize : Js.M World Z :=
  Js.read (fun w => Z.of_nat (JsMap.size (fst w))).

(** The listener given to [http.createServer], on a request with
    [req.url = url]. *)
Definition requestListener (env : Env) (url : string) : Js.M World unit :=
  if url =? "/leak" then
    on_cache (createMemoryLeak env) ;;
    on_res (writeHead 200 [("Content-Type", "application/json")]) ;;
    size <- cacheSize ;;
    on_res
      (end_
         (stringify
            (JObject [("message", JString "Memory leak created");
                      ("cacheSize", JInt size);
                      ("timestamp", JString (responseTimestamp env))])))
  else if url =? "/status" then
    let memoryUsage := memoryUsage env in
    on_res (writeHead 200 [("Content-Type", "application/json")]) ;;
    size <- cacheSize ;;
    on_res
      (end_
         (stringify
            (JObject
               [("memoryUsage",
                 JObject
                   [("rss", JString (megabytes (rss memoryUsage)));
                    ("heapTotal", JString (megabytes (heapTotal memoryUsage)));
                    ("heapUsed", JString (megabytes (heapUsed memoryUsage)));
                    ("external", JString (megabytes (external memoryUsage)))]);
                ("cacheSize", JInt size);
                ("timestamp", JString (responseTimestamp env))])))
  else
    on_res (writeHead 404 []) ;;
    on_res (end_ EmptyString).

(** The process: the module variable and, once the process has exited, its
    exit code. *)
Record Process : Type := mkProcess {
  leakyCache : Cache;
  exitCode : option Z
}.

(** [let leakyCache = new Map()] *)
Definition start : Process :=
  {| leakyCache := JsMap.empty; exitCode := None |}.

(** What the event loop delivers: a request, a tick of the monitoring
    interval, or SIGINT. *)
Inductive Event : Type :=
| Request (env : Env) (url : string)
| MonitorInterval (usage : MemoryUsage)
| SIGINT.

(** One callback. A listener that threw would end the process by an
    uncaught exception; the SIGINT handler clears the cache and exits with
    code 0; the monitoring interval only logs. *)
Definition step (p : Process) (ev : Event) : Process :=
  match exitCode p with
  | Some _ => p
  | None =>
      match ev with
      | Request env url =>
          let '(outcome, (cache, _)) :=
            requestListener env url (leakyCache p, fresh) in
          {| leakyCache := cache;
             exitCode := match outcome with
                         | Js.Normal _ => None
                         | Js.Throw _ => Some 1%Z
                         end |}
      | MonitorInterval _ => p
      | SIGINT =>
          {| leakyCache := JsMap.clear (leakyCache p); exitCode := Some 0%Z |}
      end
  end.

Definition run (p : Process) (events : list Event) : Process :=
  fold_left step events p.

(** [n] requests to /leak, the [i]-th at millisecond [i]. *)
Definition leak_requests (n : nat) : list Event :=
  map
    (fun i =>
       Request
         (mkEnv "" "0.1" (Z.of_nat i) (mkMemoryUsage 0 0 0 0) "") "/leak")
    (seq 0 n).

(** *** The cache only grows *)

Lemma has_set_mono (k k' : Z) (v : LeakData) (m : Cache) :
  JsMap.has k m = true -> JsMap.has k (JsMap.set k' v m) = true.
Proof.
  unfold JsMap.has. destruct (Z.eq_dec k k') as [->|Hne].
  - now rewrite JsMap.get_set_eq.
  - now rewrite JsMap.get_set_ne.
Qed.

Lemma has_set_inv (k k' : Z) (v : LeakData) (m : Cache) :
  JsMap.has k (JsMap.set k' v m) = true -> JsMap.has k m = true \/ k = k'.
Proof.
  unfold JsMap.has. destruct (Z.eq_dec k k') as [->|Hne]; auto.
  rewrite JsMap.get_set_ne by assumption. auto.
Qed.

Lemma createMemoryLeak_size (env : Env) (m : Cache) :
  JsMap.size (createMemoryLeak env m)
  = if JsMap.has (dateNow env) m then JsMap.size m else S (JsMap.size m).
Proof. unfold createMemoryLeak. apply JsMap.size_set. Qed.

Lemma requestListener_cache (env : Env) (url : string) (m : Cache)
    (res : ServerResponse) :
  fst (snd (requestListener env url (m, res)))
  = if url =? "/leak" then createMemoryLeak env m else m.
Proof.
  unfold requestListener, Js.bind, on_res, on_cache, cacheSize, Js.modify,
    Js.read, writeHead, end_, Js.throw.
  destruct (url =? "/leak"); [|destruct (url =? "/status")];
    cbn [fst snd]; destruct (headersSent res); reflexivity.
Qed.

Lemma requestListener_fresh (env : Env) (url : string) (m : Cache) :
  fst (requestListener env url (m, fresh)) = Js.Normal tt.
Proof.
  unfold requestListener, Js.bind, on_res, on_cache, cacheSize, Js.modify,
    Js.read, writeHead, end_, Js.throw.
  destruct (url =? "/leak"); [|destruct (url =? "/status")]; reflexivity.
Qed.

Lemma step_request (p : Process) (env : Env) (url : string) :
  exitCode p = None ->
  step p (Request env url)
  = {| leakyCache := if url =? "/leak"
                     then createMemoryLeak env (leakyCache p)
                     else leakyCache p;
       exitCode := None |}.
Proof.
  intros Hrun. unfold step. rewrite Hrun.
  pose proof (requestListener_cache env url (leakyCache p) fresh) as Hc.
  pose proof (requestListener_fresh env url (leakyCache p)) as Hf.
  destruct (requestListener env url (leakyCache p, fresh))
    as [outcome [cache res]].
  simpl in Hc, Hf. now subst.
Qed.

Lemma step_keeps_keys (p : Process) (ev : Event) (k : Z) :
  ev <> SIGINT -> JsMap.has k (leakyCache p) = true ->
  JsMap.has k (leakyCache (step p ev)) = true.
Proof.
  intros Hev Hhas. destruct (exitCode p) as [code|] eqn:Hrun.
  - unfold step. now rewrite Hrun.
  - destruct ev as [env url|usage|]; [| |congruence].
    + rewrite step_request by assumption. cbn [leakyCache].
      destruct (url =? "/leak"); auto.
      unfold createMemoryLeak. now apply has_set_mono.
    + unfold step. now rewrite Hrun.
Qed.

Lemma run_keys_from_leaks (events : list Event) :
  forall (p : Process) (k : Z),
    JsMap.has k (leakyCache (run p events)) = true ->
    JsMap.has k (leakyCache p) = true \/
    exists env, In (Request env "/leak") events /\ dateNow env = k.
Proof.
  induction events as [|ev events IH]; intros p k Hhas; simpl in *; auto.
  destruct (IH _ _ Hhas) as [Hstep|[env [Hin Hk]]].
  - destruct (exitCode p) as [code|] eqn:Hrun.
    { left. unfold step in Hstep. now rewrite Hrun in Hstep. }
    destruct ev as [env url|usage|].
    + rewrite step_request in Hstep by assumption. cbn [leakyCache] in Hstep.
      destruct (String.eqb_spec url "/leak") as [->|Hne]; auto.
      unfold createMemoryLeak in Hstep. apply has_set_inv in Hstep.
      destruct Hstep as [Hp|Hk]; auto.
      right. exists env. split; [now left | congruence].
    + left. unfold step in Hstep. now rewrite Hrun in Hstep.
    + unfold step in Hstep. rewrite Hrun in Hstep. discriminate.
  - right. exists env. split; [now right | assumption].
Qed.

Lemma run_leak_requests (n : nat) :
  JsMap.keys (leakyCache (run start (leak_requests n)))
  = map Z.of_nat (seq 0 n) /\
  exitCode (run start (leak_requests n)) = None.
Proof.
  induction n as [|n [IHk IHe]]; [split; reflexivity|].
  unfold leak_requests, run in *.
  rewrite seq_S, map_app, fold_left_app. simpl.
  rewrite step_request by assumption. cbn [leakyCache exitCode].
  rewrite String.eqb_refl. split; [|reflexivity].
  rewrite map_app. simpl. rewrite <- IHk.
  unfold createMemoryLeak. cbn [dateNow]. apply JsMap.keys_set_absent.
  destruct (JsMap.has _ _) eqn:Hhas; auto.
  apply JsMap.has_true_iff in Hhas. rewrite IHk in Hhas.
  apply in_map_iff in Hhas. destruct Hhas as [i [Hi Hin]].
  apply Nat2Z.inj in Hi. subst. apply in_seq in Hin. lia.
Qed.

(** C9: in the shipped code, [createMemoryLeak] never shrinks the cache and
    grows it by at most one entry; it leaves the size as it is exactly when
    the key [Date.now()] is already in the cache, and in a run of the
    process such a key was put there by an earlier request to /leak at the
    same millisecond. No request listener and no tick of the monitoring
    interval removes a key: a key that leaves the cache in a step of the
    process leaves in the SIGINT handler. The cache has no bound: every
    size is reached by some run. *)
Theorem leaky_cache_only_grows :
  (forall env m,
     JsMap.size m <= JsMap.size (createMemoryLeak env m) <= S (JsMap.size m) /\
     (JsMap.size (createMemoryLeak env m) = JsMap.size m <->
      JsMap.has (dateNow env) m = true)) /\
  (forall events k,
     JsMap.has k (leakyCache (run start events)) = true ->
     exists env, In (Request env "/leak") events /\ dateNow env = k) /\
  (forall env url m res k,
     JsMap.has k m = true ->
     JsMap.has k (fst (snd (requestListener env url (m, res)))) = true) /\
  (forall p ev k,
     JsMap.has k (leakyCache p) = true ->
     JsMap.has k (leakyCache (step p ev)) = false ->
     ev = SIGINT) /\
  (forall n, exists events,
     JsMap.size (leakyCache (run start events)) = n).
Proof.
  split; [|split; [|split; [|split]]].
  - intros env m. rewrite createMemoryLeak_size.
    destruct (JsMap.has (dateNow env) m); (split; [lia|]).
    + split; auto.
    + split; [lia | discriminate].
  - intros events k Hhas.
    destruct (run_keys_from_leaks events start k Hhas) as [Hs|Hex]; auto.
    discriminate.
  - intros env url m res k Hhas. rewrite requestListener_cache.
    destruct (url =? "/leak"); auto.
    unfold createMemoryLeak. now apply has_set_mono.
  - intros p ev k Hhas Hgone.
    destruct ev as [env url|usage|]; auto.
    + rewrite step_keeps_keys in Hgone by (auto; discriminate). discriminate.
    + rewrite step_keeps_keys in Hgone by (auto; discriminate). discriminate.
  - intros n. exists (leak_requests n).
    destruct (run_leak_requests n) as [Hk _].
    unfold JsMap.size. rewrite <- (length_map fst).
    fold (JsMap.keys (leakyCache (run start (leak_requests n)))).
    now rewrite Hk, length_map, length_seq.
Qed.

Lemma leaky_cache_only_grows_witness :
  let env := mkEnv "t0" "0.5" 5 (mkMemoryUsage 0 0 0 0) "t1" in
  let events := [Request env "/leak"] in
  let p := run start events in
  (JsMap.has 5%Z (leakyCache p) = true /\
   exists env', In (Request env' "/leak") events /\ dateNow env' = 5%Z) /\
  JsMap.size (createMemoryLeak env (leakyCache p)) = JsMap.size (leakyCache p) /\
  JsMap.has 5%Z (fst (snd (requestListener env "/status" (leakyCache p, fresh))))
  = true /\
  (JsMap.has 5%Z (leakyCache (step p SIGINT)) = false /\ SIGINT = SIGINT).
Proof.
  cbv zeta.
  destruct leaky_cache_only_grows as [Hsize [Hkeys [Hreq [Hstep _]]]].
  assert (Hhas : JsMap.has 5%Z
                   (leakyCache
                      (run start
                         [Request
                            (mkEnv "t0" "0.5" 5 (mkMemoryUsage 0 0 0 0) "t1")
                            "/leak"])) = true) by reflexivity.
  split; [split; [exact Hhas | exact (Hkeys _ _ Hhas)]|].
  split; [apply Hsize; exact Hhas|].
  split; [apply Hreq; exact Hhas|].
  assert (Hgone : JsMap.has 5%Z
                    (leakyCache
                       (step
                          (run start
                             [Request
                                (mkEnv "t0" "0.5" 5 (mkMemoryUsage 0 0 0 0)
                                   "t1") "/leak"]) SIGINT)) = false)
    by reflexivity.
  split; [exact Hgone | exact (Hstep _ _ _ Hhas Hgone)].
Defined.

End MemoryLeakExample.

(** ** More on the fixes of [memory-leak-example.md]: how they compose *)

Module CacheFixes.

Import MemoryLeakGuide.

Section Lists.
Context {A : Type}.

(** The last [c] elements of a list. *)
Definition lastn (c : nat) (l : list A) : list A :=
  skipn (List.length l - c) l.

Lemma tl_skipn (k : nat) (l : list A) : tl (skipn k l) = skipn (S k) l.
Proof.
  revert l. induction k as [|k IH]; intros [|x l]; simpl; auto.
Qed.

Lemma lastn_snoc (c : nat) (l : list A) (x : A) :
  1 <= c ->
  lastn c (l ++ [x])
  = (if c <=? List.length l then tl (lastn c l) else lastn c l) ++ [x].
Proof.
  intros Hc. unfold lastn. rewrite length_app. simpl.
  destruct (Nat.leb_spec c (List.length l)) as [Hle|Hlt].
  - rewrite tl_skipn.
    replace (List.length l + 1 - c) with (S (List.length l - c)) by lia.
    rewrite skipn_app.
    replace (S (List.length l - c) - List.length l) with 0 by lia.
    reflexivity.
  - replace (List.length l + 1 - c) with 0 by lia.
    replace (List.length l - c) with 0 by lia. reflexivity.
Qed.

Lemma lastn_length (c : nat) (l : list A) :
  List.length (lastn c l) = Nat.min c (List.length l).
Proof. unfold lastn. rewrite length_skipn. lia. Qed.

Lemma In_lastn (c : nat) (l : list A) (x : A) : In x (lastn c l) -> In x l.
Proof.
  unfold lastn. intros Hin.
  rewrite <- (firstn_skipn (List.length l - c) l). apply in_or_app. now right.
Qed.

End Lists.

Section Compose.
Context {K V : Type} `{KeyEq K}.

Lemma addAllToCache_snoc {W : Type} (capacity : nat) (calls : list (K * W))
    (key : K) (value : W) (m : JsMap.t K W) :
  addAllToCache capacity (calls ++ [(key, value)]) m
  = addToCache capacity key value (addAllToCache capacity calls m).
Proof. unfold addAllToCache. now rewrite fold_left_app. Qed.

Lemma wf_addAllToCache {W : Type} (capacity : nat) (calls : list (K * W)) :
  forall m : JsMap.t K W,
    JsMap.wf m -> JsMap.wf (addAllToCache capacity calls m).
Proof.
  induction calls as [|[k v] calls IH]; intros m Hwf; simpl; auto.
  apply IH. now apply wf_addToCache.
Qed.

Lemma set_absent {W : Type} (k : K) (v : W) (m : JsMap.t K W) :
  ~ In k (JsMap.keys m) -> JsMap.set k v m = m ++ [(k, v)].
Proof.
  induction m as [|[k0 v0] rest IH]; simpl; auto.
  intros Hn. destruct (key_eq_dec k k0) as [->|Hne].
  - exfalso. apply Hn. now left.
  - f_equal. apply IH. intros Hin. apply Hn. now right.
Qed.

(** The cache after a run of [addToCache] calls with pairwise distinct keys
    on the empty cache. *)
Lemma addAllToCache_distinct {W : Type} (capacity : nat)
    (calls : list (K * W)) :
  1 <= capacity ->
  NoDup (map fst calls) ->
  addAllToCache capacity calls JsMap.empty = lastn capacity calls.
Proof.
  intros Hcap. induction calls as [|[k v] calls IH] using rev_ind.
  - intros _. reflexivity.
  - rewrite map_app. simpl. intros Hnd.
    assert (Hnd' : NoDup (map fst calls)).
    { pose proof (NoDup_remove_1 _ _ _ Hnd) as Hr.
      now rewrite app_nil_r in Hr. }
    assert (Hk : ~ In k (map fst calls)).
    { pose proof (NoDup_remove_2 _ _ _ Hnd) as Hr.
      now rewrite app_nil_r in Hr. }
    specialize (IH Hnd').
    rewrite addAllToCache_snoc, lastn_snoc by assumption.
    set (m := addAllToCache capacity calls JsMap.empty) in *.
    assert (Hwf : JsMap.wf m)
      by (apply wf_addAllToCache, JsMap.wf_empty).
    assert (Hsize : JsMap.size m = Nat.min capacity (List.length calls))
      by (unfold JsMap.size; rewrite IH; apply lastn_length).
    assert (Habs : ~ In k (JsMap.keys m)).
    { rewrite IH. unfold JsMap.keys. intros Hin. apply Hk.
      apply in_map_iff in Hin. destruct Hin as [p [Hp Hin]].
      apply in_map_iff. exists p. split; auto. eapply In_lastn; eauto. }
    destruct (Nat.leb_spec capacity (List.length calls)) as [Hle|Hlt].
    + destruct m as [|[k0 v0] rest] eqn:Hm; [simpl in Hsize; lia|].
      rewrite addToCache_full by lia.
      rewrite JsMap.delete_head_wf by assumption.
      rewrite set_absent by (intros Hin; apply Habs; now right).
      now rewrite <- IH.
    + rewrite addToCache_below by lia.
      rewrite set_absent by assumption.
      now rewrite IH.
Qed.

(** *** The sweep as a filter *)

(** The test of the interval callback, negated: the entry stays. *)
Definition live (now : Z) (p : K * Entry V) : bool :=
  negb (expires (snd p) <? now)%Z.

Lemma delete_app {W : Type} (k : K) (a b : JsMap.t K W) :
  JsMap.delete k (a ++ b) = JsMap.delete k a ++ JsMap.delete k b.
Proof.
  induction a as [|[k0 v0] a IH]; simpl; auto.
  destruct (key_eq_dec k k0); simpl; now rewrite IH.
Qed.

Lemma cleanup_fold_filter (now : Z) (rest : list (K * Entry V)) :
  forall done : list (K * Entry V),
    JsMap.wf (done ++ rest) ->
    fold_left (cleanup_step now) rest (done ++ rest)
    = done ++ List.filter (live now) rest.
Proof.
  induction rest as [|[k e] rest IH]; intros done Hwf; simpl.
  - reflexivity.
  - unfold live at 1. simpl.
    unfold JsMap.wf, JsMap.keys in Hwf. rewrite map_app in Hwf. simpl in Hwf.
    destruct (expires e <? now)%Z; simpl.
    + rewrite delete_app. simpl.
      destruct (key_eq_dec k k); [|congruence].
      pose proof (NoDup_remove_2 _ _ _ Hwf) as Hnot.
      rewrite !JsMap.delete_absent
        by (intros Hin; apply Hnot; apply in_or_app; auto).
      apply IH. unfold JsMap.wf, JsMap.keys. rewrite map_app.
      now apply NoDup_remove_1 in Hwf.
    + change (done ++ (k, e) :: rest) with (done ++ [(k, e)] ++ rest).
      rewrite app_assoc, IH.
      * now rewrite <- app_assoc.
      * unfold JsMap.wf, JsMap.keys. rewrite <- app_assoc, map_app.
        exact Hwf.
Qed.

Lemma cleanupExpired_filter (now : Z) (m : JsMap.t K (Entry V)) :
  JsMap.wf m -> cleanupExpired now m = List.filter (live now) m.
Proof.
  intros Hwf. rewrite cleanupExpired_fold.
  apply (cleanup_fold_filter now m []). exact Hwf.
Qed.

Lemma get_cleanupExpired (now : Z) (k : K) (m : JsMap.t K (Entry V)) :
  JsMap.wf m ->
  JsMap.get k (cleanupExpired now m)
  = match JsMap.get k m with
    | Some e => if (expires e <? now)%Z then None else Some e
    | None => None
    end.
Proof.
  intros Hwf. rewrite cleanupExpired_fold, get_cleanup_fold.
  destruct (expired_key now k m) eqn:Hex.
  - apply expired_key_true in Hex. destruct Hex as [e [Hin Hlt]].
    rewrite (JsMap.In_get_wf k e m Hwf Hin).
    destruct (Z.ltb_spec (expires e) now); [reflexivity | lia].
  - destruct (JsMap.get k m) as [e|] eqn:Hget; auto.
    apply JsMap.get_In in Hget.
    pose proof (expired_key_false now k e m Hex Hget).
    destruct (Z.ltb_spec (expires e) now); [lia | reflexivity].
Qed.

Lemma filter_twice {A : Type} (f g h : A -> bool) (l : list A) :
  (forall x, h x = f x && g x) ->
  List.filter g (List.filter f l) = List.filter h l.
Proof.
  intros Hh. induction l as [|x l IH]; simpl; auto.
  rewrite Hh. destruct (f x); simpl; [destruct (g x)|]; now rewrite IH.
Qed.

(** *** Statements *)

(** X1: with a capacity of at least one entry, after any run of
    [addToCache] calls with pairwise distinct keys on the empty cache, the
    cache holds exactly the last [capacity] calls (all of them when there
    are fewer), in call order: eviction is first in, first out. *)
Theorem cache_holds_latest_insertions {W : Type} (capacity : nat)
    (calls : list (K * W)) :
  1 <= capacity ->
  NoDup (map fst calls) ->
  addAllToCache capacity calls JsMap.empty = lastn capacity calls /\
  Size (addAllToCache capacity calls JsMap.empty)
  = Nat.min capacity (List.length calls).
Proof.
  intros Hcap Hnd. rewrite addAllToCache_distinct by assumption.
  split; [reflexivity|]. unfold Size, JsMap.size. apply lastn_length.
Qed.

(** X2: [addToCache] evicts one entry per call. On a non-empty cache that
    already holds [capacity] entries or more, the size after the call is
    the size before or one less, and it is the size before when the key is
    new: a cache that is over the bound stays over it as new keys arrive. *)
Theorem addToCache_evicts_one_at_a_time {W : Type} (capacity : nat)
    (key : K) (value : W) (m : JsMap.t K W) :
  JsMap.wf m ->
  capacity <= Size m ->
  0 < Size m ->
  Size m - 1 <= Size (addToCache capacity key value m) <= Size m /\
  (JsMap.has key m = false ->
   Size (addToCache capacity key value m) = Size m).
Proof.
  unfold Size. intros Hwf Hcap Hpos.
  destruct m as [|[k0 v0] rest]; [simpl in Hpos; lia|].
  rewrite addToCache_full by assumption.
  rewrite JsMap.delete_head_wf by assumption.
  rewrite JsMap.size_set. simpl.
  split.
  - destruct (JsMap.has key rest); unfold JsMap.size; lia.
  - intros Hnew. unfold JsMap.has in *. simpl in Hnew.
    destruct (key_eq_dec key k0); [discriminate|].
    destruct (JsMap.get key rest); [discriminate | reflexivity].
Qed.

(** X3: on a cache with unique keys the expiry interval is a filter: it
    keeps, in their order, exactly the entries with [expires >= now]. A
    lookup after the sweep finds what it found before unless that entry had
    [expires < now]. *)
Theorem sweep_is_a_filter (now : Z) (m : JsMap.t K (Entry V)) :
  JsMap.wf m ->
  cleanupExpired now m = List.filter (live now) m /\
  (forall k,
     JsMap.get k (cleanupExpired now m)
     = match JsMap.get k m with
       | Some e => if (expires e <? now)%Z then None else Some e
       | None => None
       end).
Proof.
  intros Hwf. split.
  - now apply cleanupExpired_filter.
  - intros k. now apply get_cleanupExpired.
Qed.

(** X4: two sweeps in a row amount to one sweep at the later of the two
    times; in particular a second sweep at the same time changes nothing. *)
Theorem sweeps_compose (t1 t2 : Z) (m : JsMap.t K (Entry V)) :
  JsMap.wf m ->
  cleanupExpired t2 (cleanupExpired t1 m) = cleanupExpired (Z.max t1 t2) m /\
  cleanupExpired t1 (cleanupExpired t1 m) = cleanupExpired t1 m.
Proof.
  intros Hwf.
  assert (Hboth : forall a b,
            cleanupExpired b (cleanupExpired a m)
            = cleanupExpired (Z.max a b) m).
  { intros a b.
    rewrite (cleanupExpired_filter b) by now apply wf_cleanupExpired.
    rewrite !cleanupExpired_filter by assumption.
    apply filter_twice. intros [k e]. unfold live. simpl.
    destruct (Z.ltb_spec (expires e) a), (Z.ltb_spec (expires e) b),
      (Z.ltb_spec (expires e) (Z.max a b)); simpl; auto; lia. }
  split; [apply Hboth|]. rewrite Hboth. now rewrite Z.max_id.
Qed.

(** X5: an entry written by [addToCacheWithTTL] at time [now], with a sum
    [now + ttlMs] that is a safe integer, is still found after a sweep at
    time [now'] exactly when [now' <= now + ttlMs] (one hour when [ttlMs] is
    omitted); for every other key it makes no difference to the sweep that
    the entry was written. *)
Theorem ttl_entry_survives_until_expiry (now now' : Z) (key : K)
    (value : V) (ttlMs : option Z) (m : JsMap.t K (Entry V)) :
  JsMap.wf m ->
  let expiration :=
    (now + match ttlMs with Some ms => ms | None => default_ttlMs end)%Z in
  safe_integer expiration ->
  let cache := addToCacheWithTTL now key value ttlMs m in
  JsMap.get key (cleanupExpired now' cache)
  = (if (expiration <? now')%Z then None
     else Some (mkEntry value expiration)) /\
  (forall k, k <> key ->
     JsMap.get k (cleanupExpired now' cache)
     = JsMap.get k (cleanupExpired now' m)).
Proof.
  intros Hwf expiration Hsafe cache.
  assert (Hwf' : JsMap.wf cache) by now apply wf_addToCacheWithTTL.
  split.
  - rewrite get_cleanupExpired by assumption.
    unfold cache, addToCacheWithTTL. now rewrite JsMap.get_set_eq.
  - intros k Hne. rewrite !get_cleanupExpired by assumption.
    unfold cache, addToCacheWithTTL. now rewrite JsMap.get_set_ne.
Qed.

End Compose.

Section Concrete.
Open Scope string_scope.

Ltac unique_keys :=
  unfold JsMap.wf; simpl; repeat constructor; simpl; intuition discriminate.

Ltac distinct :=
  simpl; repeat constructor; simpl; intuition discriminate.

Lemma cache_holds_latest_insertions_witness :
  let calls := [("A", 1%Z); ("B", 2%Z); ("C", 3%Z)] in
  (1 <= 2 /\ NoDup (map fst calls)) /\
  addAllToCache 2 calls JsMap.empty = [("B", 2%Z); ("C", 3%Z)] /\
  Size (addAllToCache 2 calls JsMap.empty) = 2.
Proof.
  cbv zeta.
  assert (Hnd : NoDup (map fst [("A", 1%Z); ("B", 2%Z); ("C", 3%Z)]))
    by distinct.
  assert (Hcap : 1 <= 2) by lia.
  split; [split; assumption|].
  exact (cache_holds_latest_insertions 2
           [("A", 1%Z); ("B", 2%Z); ("C", 3%Z)] Hcap Hnd).
Defined.

Lemma addToCache_evicts_one_at_a_time_witness :
  let m := [("A", 1%Z); ("B", 2%Z); ("C", 3%Z)] in
  (JsMap.wf m /\ 1 <= Size m /\ 0 < Size m /\ JsMap.has "D" m = false) /\
  Size (addToCache 1 "D" 4%Z m) = Size m.
Proof.
  cbv zeta.
  assert (Hwf : JsMap.wf [("A", 1%Z); ("B", 2%Z); ("C", 3%Z)])
    by unique_keys.
  assert (Hcap : 1 <= Size [("A", 1%Z); ("B", 2%Z); ("C", 3%Z)])
    by (simpl; lia).
  assert (Hpos : 0 < Size [("A", 1%Z); ("B", 2%Z); ("C", 3%Z)])
    by (simpl; lia).
  assert (Hnew : JsMap.has "D" [("A", 1%Z); ("B", 2%Z); ("C", 3%Z)] = false)
    by reflexivity.
  split; [repeat split; assumption|].
  exact (proj2 (addToCache_evicts_one_at_a_time 1 "D" 4%Z
                  [("A", 1%Z); ("B", 2%Z); ("C", 3%Z)] Hwf Hcap Hpos) Hnew).
Defined.

Lemma sweep_is_a_filter_witness :
  let m := [("x", mkEntry 1%Z 10%Z); ("y", mkEntry 2%Z 20%Z);
            ("z", mkEntry 3%Z 15%Z)] in
  JsMap.wf m /\
  cleanupExpired 15 m = [("y", mkEntry 2%Z 20%Z); ("z", mkEntry 3%Z 15%Z)].
Proof.
  cbv zeta.
  assert (Hwf : JsMap.wf
                  [("x", mkEntry 1%Z 10%Z); ("y", mkEntry 2%Z 20%Z);
                   ("z", mkEntry 3%Z 15%Z)]) by unique_keys.
  split; [exact Hwf|].
  exact (proj1 (sweep_is_a_filter 15
                  [("x", mkEntry 1%Z 10%Z); ("y", mkEntry 2%Z 20%Z);
                   ("z", mkEntry 3%Z 15%Z)] Hwf)).
Defined.

Lemma sweeps_compose_witness :
  let m := [("x", mkEntry 1%Z 10%Z); ("y", mkEntry 2%Z 20%Z);
            ("z", mkEntry 3%Z 15%Z)] in
  JsMap.wf m /\
  cleanupExpired 12 (cleanupExpired 18 m) = cleanupExpired (Z.max 18 12) m.
Proof.
  cbv zeta.
  assert (Hwf : JsMap.wf
                  [("x", mkEntry 1%Z 10%Z); ("y", mkEntry 2%Z 20%Z);
                   ("z", mkEntry 3%Z 15%Z)]) by unique_keys.
  split; [exact Hwf|].
  exact (proj1 (sweeps_compose 18 12
                  [("x", mkEntry 1%Z 10%Z); ("y", mkEntry 2%Z 20%Z);
                   ("z", mkEntry 3%Z 15%Z)] Hwf)).
Defined.

(** An entry written at time 0 without [ttlMs] is found after the sweep at
    3600000 and gone after the sweep at 3600001. *)
Lemma ttl_entry_survives_until_expiry_witness :
  let m := [("y", mkEntry 2%Z 20%Z)] in
  let cache := addToCacheWithTTL 0 "x" 1%Z None m in
  (JsMap.wf m /\ safe_integer (0 + default_ttlMs)) /\
  JsMap.get "x" (cleanupExpired 3600000 cache)
  = Some (mkEntry 1%Z 3600000%Z) /\
  JsMap.get "x" (cleanupExpired 3600001 cache) = None.
Proof.
  cbv zeta.
  assert (Hwf : JsMap.wf [("y", mkEntry 2%Z 20%Z)]) by unique_keys.
  assert (Hsafe : safe_integer (0 + default_ttlMs))
    by (unfold safe_integer, default_ttlMs; lia).
  split; [split; assumption|]. split.
  - exact (proj1 (ttl_entry_survives_until_expiry 0 3600000 "x" 1%Z None
                    [("y", mkEntry 2%Z 20%Z)] Hwf Hsafe)).
  - exact (proj1 (ttl_entry_survives_until_expiry 0 3600001 "x" 1%Z None
                    [("y", mkEntry 2%Z 20%Z)] Hwf Hsafe)).
Defined.

End Concrete.

End CacheFixes.

(** ** More on [memory-leak-example.js]: runs, responses, payload *)

Module LeakServer.

Import Json Http MemoryLeakExample.
Open Scope string_scope.

(** The milliseconds at which the /leak requests of a run arrived. *)
Fixpoint leak_times (events : list Event) : list Z :=
  match events with
  | [] => []
  | Request env url :: rest =>
      if url =? "/leak" then dateNow env :: leak_times rest
      else leak_times rest
  | _ :: rest => leak_times rest
  end.

(** The response object after the listener has run on a fresh one. *)
Definition response (env : Env) (url : string) (m : Cache)
    : ServerResponse :=
  snd (snd (requestListener env url (m, fresh))).

(** *** Runs *)

Lemma run_cons (p : Process) (ev : Event) (events : list Event) :
  run p (ev :: events) = run (step p ev) events.
Proof. reflexivity. Qed.

Lemma step_exited (p : Process) (ev : Event) (code : Z) :
  exitCode p = Some code -> step p ev = p.
Proof. intros Hex. unfold step. now rewrite Hex. Qed.

Lemma run_exited (events : list Event) (p : Process) (code : Z) :
  exitCode p = Some code -> run p events = p.
Proof.
  intros Hex. induction events as [|ev events IH]; [reflexivity|].
  rewrite run_cons, (step_exited p ev code Hex). exact IH.
Qed.

Lemma step_monitor (p : Process) (usage : MemoryUsage) :
  step p (MonitorInterval usage) = p.
Proof. unfold step. now destruct (exitCode p). Qed.

Lemma In_leak_times (events : list Event) (k : Z) :
  In k (leak_times events)
  <-> exists env, In (Request env "/leak") events /\ dateNow env = k.
Proof.
  induction events as [|ev events IH]; simpl.
  - split; [tauto | intros [env [[] _]]].
  - destruct ev as [env url|usage|].
    + destruct (String.eqb_spec url "/leak") as [->|Hne]; simpl.
      * rewrite IH. split.
        -- intros [Hk|[env' [Hin Hk]]]; [exists env | exists env']; auto.
        -- intros [env' [[Heq|Hin] Hk]].
           ++ left. congruence.
           ++ right. exists env'. auto.
      * rewrite IH. split.
        -- intros [env' [Hin Hk]]. exists env'. auto.
        -- intros [env' [[Heq|Hin] Hk]]; [congruence | exists env'; auto].
    + rewrite IH. split.
      * intros [env' [Hin Hk]]. exists env'. auto.
      * intros [env' [[Heq|Hin] Hk]]; [discriminate | exists env'; auto].
    + rewrite IH. split.
      * intros [env' [Hin Hk]]. exists env'. auto.
      * intros [env' [[Heq|Hin] Hk]]; [discriminate | exists env'; auto].
Qed.

Lemma has_createMemoryLeak (env : Env) (m : Cache) (k : Z) :
  JsMap.has k (createMemoryLeak env m) = true
  <-> JsMap.has k m = true \/ k = dateNow env.
Proof.
  unfold createMemoryLeak. split.
  - apply has_set_inv.
  - intros [Hh| ->]; [now apply has_set_mono|].
    unfold JsMap.has. now rewrite JsMap.get_set_eq.
Qed.

(** While no SIGINT arrives the process keeps running, the keys stay
    unique, and the keys are those it had plus the times of the /leak
    requests. *)
Lemma run_without_SIGINT (events : list Event) :
  forall p : Process,
    exitCode p = None ->
    ~ In SIGINT events ->
    exitCode (run p events) = None /\
    (JsMap.wf (leakyCache p) -> JsMap.wf (leakyCache (run p events))) /\
    (forall k,
       JsMap.has k (leakyCache (run p events)) = true
       <-> JsMap.has k (leakyCache p) = true \/ In k (leak_times events)).
Proof.
  induction events as [|ev events IH]; intros p Hrun Hno.
  - simpl. repeat split; auto. intros [?|[]]; auto.
  - rewrite run_cons. cbn [leak_times].
    assert (Hno' : ~ In SIGINT events) by (intros Hin; apply Hno; now right).
    destruct ev as [env url|usage|].
    + rewrite step_request by assumption.
      set (p' := {| leakyCache := if url =? "/leak"
                                  then createMemoryLeak env (leakyCache p)
                                  else leakyCache p;
                    exitCode := None |}).
      destruct (IH p' eq_refl Hno') as [Hex [Hwf Hkeys]].
      split; [exact Hex|]. split.
      * intros Hwfp. apply Hwf. unfold p'. cbn [leakyCache].
        destruct (url =? "/leak"); auto.
        unfold createMemoryLeak. now apply JsMap.wf_set.
      * intros k. rewrite Hkeys. unfold p'. cbn [leakyCache].
        destruct (url =? "/leak"); simpl; [|tauto].
        rewrite has_createMemoryLeak. intuition congruence.
    + rewrite step_monitor. now apply IH.
    + exfalso. apply Hno. now left.
Qed.

(** Once SIGINT has arrived the cache is empty and the exit code is 0. *)
Lemma run_with_SIGINT (events : list Event) :
  forall p : Process,
    exitCode p = None ->
    In SIGINT events ->
    run p events = {| leakyCache := JsMap.empty; exitCode := Some 0%Z |}.
Proof.
  induction events as [|ev events IH]; intros p Hrun Hin.
  - destruct Hin.
  - rewrite run_cons. destruct ev as [env url|usage|].
    + rewrite step_request by assumption. apply IH; auto.
      destruct Hin as [Heq|Hin]; [discriminate | exact Hin].
    + rewrite step_monitor. apply IH; auto.
      destruct Hin as [Heq|Hin]; [discriminate | exact Hin].
    + unfold step. rewrite Hrun. now apply run_exited with (code := 0%Z).
Qed.

Lemma In_SIGINT_dec (events : list Event) :
  {In SIGINT events} + {~ In SIGINT events}.
Proof.
  induction events as [|ev events [IH|IH]].
  - right. intros [].
  - left. now right.
  - destruct ev as [env url|usage|].
    + right. intros [Heq|Hin]; [discriminate | contradiction].
    + right. intros [Heq|Hin]; [discriminate | contradiction].
    + left. now left.
Qed.

(** *** Payload *)

Lemma length_append (s t : string) :
  String.length (s ++ t) = String.length s + String.length t.
Proof. induction s as [|c s IH]; simpl; auto. Qed.

Lemma String_repeat_length (s : string) (count : N) :
  N.of_nat (String.length (String_repeat s count))
  = (count * N.of_nat (String.length s))%N.
Proof.
  unfold String_repeat. induction count as [|count IH] using N.peano_ind.
  - reflexivity.
  - rewrite N.iter_succ, length_append. lia.
Qed.

Lemma get_createMemoryLeak (env : Env) (m : Cache) (k : Z) (d : LeakData) :
  JsMap.get k (createMemoryLeak env m) = Some d ->
  JsMap.get k m = Some d \/
  d = {| timestamp := dataTimestamp env;
         largeString := String_repeat "x" (1024 * 1024);
         randomData := String_repeat (random36 env) 1000 |}.
Proof.
  unfold createMemoryLeak. destruct (Z.eq_dec k (dateNow env)) as [->|Hne].
  - rewrite JsMap.get_set_eq. intros Heq. right. congruence.
  - rewrite JsMap.get_set_ne by assumption. auto.
Qed.

Lemma run_entries (events : list Event) (P : LeakData -> Prop) :
  (forall env,
     P {| timestamp := dataTimestamp env;
          largeString := String_repeat "x" (1024 * 1024);
          randomData := String_repeat (random36 env) 1000 |}) ->
  forall p : Process,
    (forall k d, JsMap.get k (leakyCache p) = Some d -> P d) ->
    forall k d, JsMap.get k (leakyCache (run p events)) = Some d -> P d.
Proof.
  intros Hnew. induction events as [|ev events IH]; intros p Hp; auto.
  rewrite run_cons. apply IH. intros k d. destruct (exitCode p) as [code|] eqn:Hrun.
  { unfold step. rewrite Hrun. apply Hp. }
  destruct ev as [env url|usage|].
  - rewrite step_request by assumption. cbn [leakyCache].
    destruct (url =? "/leak"); [|apply Hp].
    intros Hget. apply get_createMemoryLeak in Hget.
    destruct Hget as [Hold| ->]; eauto.
  - rewrite step_monitor. apply Hp.
  - unfold step. rewrite Hrun. cbn [leakyCache]. discriminate.
Qed.

(** *** Statements *)

(** X6: as long as no SIGINT arrives, the process keeps running and drops
    nothing: a key is in [leakyCache] exactly when some /leak request
    arrived at that millisecond, and the cache holds one entry per distinct
    millisecond of a /leak request. *)
Theorem leak_keeps_every_key (events : list Event) :
  ~ In SIGINT events ->
  exitCode (run start events) = None /\
  (forall k,
     JsMap.has k (leakyCache (run start events)) = true
     <-> In k (leak_times events)) /\
  JsMap.size (leakyCache (run start events))
  = List.length (nodup Z.eq_dec (leak_times events)).
Proof.
  intros Hno.
  destruct (run_without_SIGINT events start eq_refl Hno)
    as [Hex [Hwf Hkeys]].
  assert (Hiff : forall k,
            JsMap.has k (leakyCache (run start events)) = true
            <-> In k (leak_times events)).
  { intros k. rewrite Hkeys. simpl. intuition discriminate. }
  split; [exact Hex|]. split; [exact Hiff|].
  specialize (Hwf JsMap.wf_empty). unfold JsMap.wf in Hwf.
  unfold JsMap.size. rewrite <- (length_map fst).
  fold (JsMap.keys (leakyCache (run start events))).
  apply Nat.le_antisymm.
  - apply NoDup_incl_length; [exact Hwf|].
    intros k Hin. apply nodup_In. apply Hiff. now apply JsMap.has_true_iff.
  - apply NoDup_incl_length; [apply NoDup_nodup|].
    intros k Hin. apply nodup_In in Hin.
    apply JsMap.has_true_iff. now apply Hiff.
Qed.

(** X7: the process ends only through SIGINT. A run that contains a SIGINT
    ends with exit code 0 and an empty cache, whatever came before and
    after it; a run without one is still running; no run ends with exit
    code 1, because no listener throws on a fresh response. *)
Theorem process_ends_only_by_SIGINT (events : list Event) :
  (In SIGINT events ->
   run start events = {| leakyCache := JsMap.empty; exitCode := Some 0%Z |}) /\
  (~ In SIGINT events -> exitCode (run start events) = None) /\
  exitCode (run start events) <> Some 1%Z.
Proof.
  assert (Hyes : In SIGINT events ->
                 run start events
                 = {| leakyCache := JsMap.empty; exitCode := Some 0%Z |})
    by (intros Hin; now apply run_with_SIGINT).
  assert (Hno : ~ In SIGINT events -> exitCode (run start events) = None)
    by (intros Hn; now apply run_without_SIGINT).
  split; [exact Hyes|]. split; [exact Hno|].
  destruct (In_SIGINT_dec events) as [Hin|Hn].
  - rewrite (Hyes Hin). discriminate.
  - rewrite (Hno Hn). discriminate.
Qed.


(** X9: a request for any URL other than /leak and /status, '/' included,
    is answered with status code 404, no header and an empty body, and
    leaves the cache as it is. *)
Theorem unknown_url_is_404 (env : Env) (url : string) (m : Cache) :
  url <> "/leak" -> url <> "/status" ->
  requestListener env url (m, fresh)
  = (Js.Normal tt,
     (m, {| statusCode := 404; headers := JsMap.empty; headersSent := true;
            body := EmptyString; finished := true |})).
Proof.
  intros Hleak Hstatus. unfold requestListener.
  rewrite (proj2 (String.eqb_neq url "/leak") Hleak).
  rewrite (proj2 (String.eqb_neq url "/status") Hstatus).
  reflexivity.
Qed.

(** X10: every entry of the cache, in every run, holds a [largeString] of
    1048576 characters and a [randomData] whose length is a multiple of
    1000. *)
Theorem every_entry_holds_a_megabyte (events : list Event) (k : Z)
    (d : LeakData) :
  JsMap.get k (leakyCache (run start events)) = Some d ->
  N.of_nat (String.length (largeString d)) = 1048576%N /\
  exists r : N, N.of_nat (String.length (randomData d)) = (1000 * r)%N.
Proof.
  apply (run_entries events
           (fun d =>
              N.of_nat (String.length (largeString d)) = 1048576%N /\
              exists r : N,
                N.of_nat (String.length (randomData d)) = (1000 * r)%N)).
  - intros env. cbn [largeString randomData].
    rewrite !String_repeat_length. split; [reflexivity|].
    now exists (N.of_nat (String.length (random36 env))).
  - intros k' d' Hget. discriminate.
Qed.

(** X11: for a byte count from 0 to below 2^53, the figure printed is the
    count in MiB rounded to the nearest integer, halves up: it differs from
    the exact quotient by at most one half, and it is not negative. *)
Theorem megabytes_rounds_to_nearest (bytes : Z) :
  (0 <= bytes < 9007199254740992)%Z ->
  exists n : Z,
    megabytes bytes = (string_of_Z n ++ "MB")%string /\
    (n * 1048576 - 524288 <= bytes < n * 1048576 + 524288)%Z /\
    (0 <= n < 8589934593)%Z.
Proof.
  intros Hrange.
  exists ((bytes + 524288) / 1048576)%Z. split; [reflexivity|].
  pose proof (Z.div_mod (bytes + 524288) 1048576 ltac:(lia)) as Hdm.
  pose proof (Z.mod_pos_bound (bytes + 524288) 1048576 ltac:(lia)) as Hb.
  split; lia.
Qed.

Lemma leak_keeps_every_key_witness :
  let env5 := mkEnv "t0" "0.5" 5 (mkMemoryUsage 0 0 0 0) "t1" in
  let env7 := mkEnv "t2" "0.7" 7 (mkMemoryUsage 0 0 0 0) "t3" in
  let events :=
    [Request env5 "/leak"; Request env7 "/leak"; Request env5 "/leak";
     Request env7 "/status"] in
  ~ In SIGINT events /\
  JsMap.size (leakyCache (run start events)) = 2 /\
  JsMap.has 5%Z (leakyCache (run start events)) = true.
Proof.
  cbv zeta.
  set (events :=
         [Request (mkEnv "t0" "0.5" 5 (mkMemoryUsage 0 0 0 0) "t1") "/leak";
          Request (mkEnv "t2" "0.7" 7 (mkMemoryUsage 0 0 0 0) "t3") "/leak";
          Request (mkEnv "t0" "0.5" 5 (mkMemoryUsage 0 0 0 0) "t1") "/leak";
          Request (mkEnv "t2" "0.7" 7 (mkMemoryUsage 0 0 0 0) "t3")
            "/status"]).
  assert (Hno : ~ In SIGINT events)
    by (unfold events; simpl; intuition discriminate).
  destruct (leak_keeps_every_key events Hno) as [_ [Hkeys Hsize]].
  split; [exact Hno|]. split.
  - rewrite Hsize. reflexivity.
  - apply Hkeys. left. reflexivity.
Defined.

Lemma process_ends_only_by_SIGINT_witness :
  let env := mkEnv "t0" "0.5" 5 (mkMemoryUsage 0 0 0 0) "t1" in
  let events := [Request env "/leak"; SIGINT; Request env "/leak"] in
  In SIGINT events /\
  run start events = {| leakyCache := JsMap.empty; exitCode := Some 0%Z |}.
Proof.
  cbv zeta.
  assert (Hin : In SIGINT
                  [Request (mkEnv "t0" "0.5" 5 (mkMemoryUsage 0 0 0 0) "t1")
                     "/leak";
                   SIGINT;
                   Request (mkEnv "t0" "0.5" 5 (mkMemoryUsage 0 0 0 0) "t1")
                     "/leak"])
    by (right; left; reflexivity).
  split; [exact Hin|].
  exact (proj1 (process_ends_only_by_SIGINT _) Hin).
Defined.

Lemma unknown_url_is_404_witness :
  let env := mkEnv "t0" "0.5" 5 (mkMemoryUsage 0 0 0 0) "t1" in
  ("/" <> "/leak" /\ "/" <> "/status") /\
  statusCode (response env "/" JsMap.empty) = 404%Z /\
  body (response env "/" JsMap.empty) = EmptyString.
Proof.
  cbv zeta.
  assert (H1 : "/" <> "/leak") by discriminate.
  assert (H2 : "/" <> "/status") by discriminate.
  split; [split; assumption|].
  unfold response.
  rewrite (unknown_url_is_404
             (mkEnv "t0" "0.5" 5 (mkMemoryUsage 0 0 0 0) "t1") "/"
             JsMap.empty H1 H2).
  split; reflexivity.
Defined.

Lemma every_entry_holds_a_megabyte_witness :
  let env := mkEnv "t0" "0.5" 5 (mkMemoryUsage 0 0 0 0) "t1" in
  let d := {| timestamp := "t0";
              largeString := String_repeat "x" (1024 * 1024);
              randomData := String_repeat "0.5" 1000 |} in
  JsMap.get 5%Z (leakyCache (run start [Request env "/leak"])) = Some d /\
  N.of_nat (String.length (largeString d)) = 1048576%N.
Proof.
  cbv zeta.
  assert (Hget : JsMap.get 5%Z
                   (leakyCache
                      (run start
                         [Request
                            (mkEnv "t0" "0.5" 5 (mkMemoryUsage 0 0 0 0) "t1")
                            "/leak"]))
                 = Some {| timestamp := "t0";
                           largeString := String_repeat "x" (1024 * 1024);
                           randomData := String_repeat "0.5" 1000 |})
    by reflexivity.
  split; [exact Hget|].
  exact (proj1 (every_entry_holds_a_megabyte _ _ _ Hget)).
Defined.

Lemma megabytes_rounds_to_nearest_witness :
  (0 <= 1572864 < 9007199254740992)%Z /\
  exists n : Z,
    megabytes 1572864 = (string_of_Z n ++ "MB")%string /\
    (n * 1048576 - 524288 <= 1572864 < n * 1048576 + 524288)%Z.
Proof.
  assert (Hrange : (0 <= 1572864 < 9007199254740992)%Z) by lia.
  split; [exact Hrange|].
  destruct (megabytes_rounds_to_nearest 1572864 Hrange)
    as [n [Htext [Hb _]]].
  exists n. split; [exact Htext | exact Hb].
Defined.

End LeakServer.

(** ** More on the routed server: headers, the 404 answer, the guide *)

Module RoutedServerFacts.

Import Json Http RoutedServer.
Open Scope string_scope.

(** The headers the listener sets before it looks at the URL. *)
Definition defaultHeaders : JsMap.t string string :=
  [("Content-Type", "application/json");
   ("X-Content-Type-Options", "nosniff");
   ("X-Frame-Options", "DENY");
   ("X-XSS-Protection", "1; mode=block")].

Lemma not_route_eqb (url : string) :
  ~ is_route url ->
  (url =? "/") = false /\ (url =? "/about") = false /\
  (url =? "/api/status") = false.
Proof.
  unfold is_route. intros Hn. repeat split; apply String.eqb_neq; tauto.
Qed.

(** X12: every response of the listener on a fresh response object carries
    the four default headers, the 404 answers included, and nothing else. *)
Theorem every_response_has_security_headers (env : Env) (url : string) :
  headers (respond env url) = defaultHeaders /\
  JsMap.get "X-Content-Type-Options" (headers (respond env url))
  = Some "nosniff" /\
  JsMap.get "X-Frame-Options" (headers (respond env url)) = Some "DENY" /\
  JsMap.get "X-XSS-Protection" (headers (respond env url))
  = Some "1; mode=block".
Proof.
  unfold respond. rewrite respond_eq. cbn [snd headers].
  repeat split; reflexivity.
Qed.

(** X13: the answer to a URL that is not a route is one fixed response:
    status code 404 and the body of [notFoundData], with nothing of the
    URL, the time or the uptime in it. *)
Theorem not_found_is_one_fixed_response (env : Env) (url : string) :
  ~ is_route url ->
  respond env url
  = {| statusCode := 404; headers := defaultHeaders; headersSent := true;
       body := stringify notFoundData; finished := true |}.
Proof.
  intros Hn. destruct (not_route_eqb url Hn) as [H1 [H2 H3]].
  unfold respond. rewrite respond_eq. cbn [snd].
  unfold sent_members. now rewrite H1, H2, H3.
Qed.

(** The listener of the guide [server.md], "Advanced Route Handling": one
    default header and two routes. *)
Definition guideListener (env : Env) (url : string)
    : Js.M ServerResponse unit :=
  Js.try_catch
    (setHeader "Content-Type" "application/json" ;;
     if url =? "/" then
       set_statusCode 200 ;; end_ (stringify (homeData env))
     else if url =? "/about" then
       set_statusCode 200 ;; end_ (stringify aboutData)
     else
       set_statusCode 404 ;; end_ (stringify notFoundData))
    (fun error =>
       set_statusCode 500 ;; end_ (stringify internalErrorData)).

(** X22: the listener of the guide and the listener of the server give
    every URL other than '/api/status' the same status code and the same
    body; '/api/status' is a route of the server only, and the guide's
    listener answers it with 404. The guide's listener sets Content-Type
    and none of the other three headers. *)
Theorem guide_and_server_differ_on_api_status (env : Env) (url : string) :
  let guide := snd (guideListener env url fresh) in
  headers guide = [("Content-Type", "application/json")] /\
  finished guide = true /\
  (url <> "/api/status" ->
   statusCode guide = statusCode (respond env url) /\
   body guide = body (respond env url)) /\
  (url = "/api/status" ->
   statusCode guide = 404%Z /\ statusCode (respond env url) = 200%Z).
Proof.
  cbv zeta. unfold respond. rewrite respond_eq. cbn [snd statusCode body].
  unfold guideListener, sent_members, Js.try_catch, Js.bind.
  destruct (String.eqb_spec url "/") as [->|H1].
  { repeat split; intros; try reflexivity; discriminate. }
  destruct (String.eqb_spec url "/about") as [->|H2].
  { repeat split; intros; try reflexivity; discriminate. }
  destruct (String.eqb_spec url "/api/status") as [->|H3].
  - repeat split; intros; try reflexivity; congruence.
  - repeat split; intros; try reflexivity; congruence.
Qed.

Lemma guide_and_server_differ_on_api_status_witness :
  let env := mkEnv "2025-01-01T00:00:00.000Z" "12.5" in
  "/api/status" = "/api/status" /\
  statusCode (snd (guideListener env "/api/status" fresh)) = 404%Z /\
  statusCode (respond env "/api/status") = 200%Z /\
  ("/about" <> "/api/status" /\
   body (snd (guideListener env "/about" fresh))
   = body (respond env "/about")).
Proof.
  cbv zeta. split; [reflexivity|].
  destruct (guide_and_server_differ_on_api_status
              (mkEnv "2025-01-01T00:00:00.000Z" "12.5") "/api/status")
    as [_ [_ [_ Hapi]]].
  destruct (guide_and_server_differ_on_api_status
              (mkEnv "2025-01-01T00:00:00.000Z" "12.5") "/about")
    as [_ [_ [Hsame _]]].
  assert (Hne : "/about" <> "/api/status") by discriminate.
  split; [exact (proj1 (Hapi eq_refl))|].
  split; [exact (proj2 (Hapi eq_refl))|].
  split; [exact Hne | exact (proj2 (Hsame Hne))].
Defined.

Lemma not_found_is_one_fixed_response_witness :
  ~ is_route "/about/" /\
  statusCode (respond (mkEnv "2025-01-01T00:00:00.000Z" "12.5") "/about/")
  = 404%Z /\
  respond (mkEnv "2025-01-01T00:00:00.000Z" "12.5") "/about/"
  = respond (mkEnv "2026-06-30T12:00:00.000Z" "99") "/about/".
Proof.
  assert (Hn : ~ is_route "/about/") by (intros [?|[?|?]]; discriminate).
  split; [exact Hn|].
  rewrite (not_found_is_one_fixed_response
             (mkEnv "2025-01-01T00:00:00.000Z" "12.5") "/about/" Hn).
  rewrite (not_found_is_one_fixed_response
             (mkEnv "2026-06-30T12:00:00.000Z" "99") "/about/" Hn).
  split; reflexivity.
Defined.

End RoutedServerFacts.

(** ** [memory-metrics-example.js] *)

Module MemoryMetricsExample.

Import Json Http.
Open Scope string_scope.

(** The object [createLargeObject] returns. *)
Record LargeObject : Type := mkLargeObject {
  data : string;
  timestamp : Z
}.

(** [function createLargeObject(size)], called when [Date.now()] reads
    [now]; [size] is a count of megabytes, small enough for the engine to
    hold the string (the only call passes 1). *)
Definition createLargeObject (now : Z) (size : N) : LargeObject :=
  {| data := MemoryLeakExample.String_repeat "x" (size * 1024 * 1024);
     timestamp := now |}.

(** What one request reads from its environment. Console output is not
    modelled. *)
Record Env : Type := mkEnv {
  dateNow : Z;                                  (* Date.now() *)
  memoryUsage : MemoryLeakExample.MemoryUsage   (* process.memoryUsage() *)
}.

(** [let objects = []]; [objects.push] appends. *)
Definition Objects : Type := list LargeObject.

Definition World : Type := (Objects * ServerResponse)%type.

Definition on_res {A : Type} (c : Js.M ServerResponse A) : Js.M World A :=
  fun w =>
    let '(r, res) := c (snd w) in (r, (fst w, res)).

Definition push (o : LargeObject) : Js.M World unit :=
  Js.modify (fun w : World => ((fst w ++ [o])%list, snd w)).

Definition objectCount : Js.M World Z :=
  Js.read (fun w => Z.of_nat (List.length (fst w))).

Definition memoryMetrics (usage : MemoryLeakExample.MemoryUsage) : value :=
  JObject
    [("heapTotal",
      JString (MemoryLeakExample.megabytes
                 (MemoryLeakExample.heapTotal usage)));
     ("heapUsed",
      JString (MemoryLeakExample.megabytes
                 (MemoryLeakExample.heapUsed usage)));
     ("external",
      JString (MemoryLeakExample.megabytes
                 (MemoryLeakExample.external usage)))].

(** The listener given to [http.createServer], on a request with
    [req.url = url]. The buffer of /buffer is a local constant that is not
    used again. *)
Definition requestListener (env : Env) (url : string) : Js.M World unit :=
  if url =? "/allocate" then
    push (createLargeObject (dateNow env) 1) ;;
    on_res (writeHead 200 [("Content-Type", "application/json")]) ;;
    count <- objectCount ;;
    on_res
      (end_
         (stringify
            (JObject [("message", JString "Allocated 1MB of memory");
                      ("memoryMetrics", memoryMetrics (memoryUsage env));
                      ("objectCount", JInt count)])))
  else if url =? "/buffer" then
    on_res (writeHead 200 [("Content-Type", "application/json")]) ;;
    on_res
      (end_
         (stringify
            (JObject [("message", JString "Created 1MB buffer");
                      ("memoryMetrics", memoryMetrics (memoryUsage env))])))
  else if url =? "/status" then
    on_res (writeHead 200 [("Content-Type", "application/json")]) ;;
    count <- objectCount ;;
    on_res
      (end_
         (stringify
            (JObject [("memoryMetrics", memoryMetrics (memoryUsage env));
                      ("objectCount", JInt count)])))
  else
    on_res (writeHead 404 []) ;;
    on_res (end_ EmptyString).

(** What the event loop delivers: a request or a tick of the monitoring
    interval, which only logs. *)
Inductive Event : Type :=
| Request (env : Env) (url : string)
| MonitorInterval (usage : MemoryLeakExample.MemoryUsage).

(** One callback, as its effect on [objects]. *)
Definition step (objects : Objects) (ev : Event) : Objects :=
  match ev with
  | Request env url => fst (snd (requestListener env url (objects, fresh)))
  | MonitorInterval _ => objects
  end.

Definition run (objects : Objects) (events : list Event) : Objects :=
  fold_left step events objects.

(** The times of the /allocate requests of a run, in order. *)
Fixpoint allocate_times (events : list Event) : list Z :=
  match events with
  | [] => []
  | Request env url :: rest =>
      if url =? "/allocate" then dateNow env :: allocate_times rest
      else allocate_times rest
  | MonitorInterval _ :: rest => allocate_times rest
  end.

(** The response object after the listener has run on a fresh one. *)
Definition response (env : Env) (url : string) (objects : Objects)
    : ServerResponse :=
  snd (snd (requestListener env url (objects, fresh))).

Lemma requestListener_objects (env : Env) (url : string) (objects : Objects)
    (res : ServerResponse) :
  fst (snd (requestListener env url (objects, res)))
  = if url =? "/allocate"
    then (objects ++ [createLargeObject (dateNow env) 1])%list
    else objects.
Proof.
  unfold requestListener, Js.bind, on_res, push, objectCount, Js.modify,
    Js.read, writeHead, end_, Js.throw.
  destruct (url =? "/allocate");
    [|destruct (url =? "/buffer"); [|destruct (url =? "/status")]];
    cbn [fst snd]; destruct (headersSent res); reflexivity.
Qed.

Lemma run_objects (events : list Event) :
  forall objects : Objects,
    run objects events
    = (objects
       ++ map (fun now => createLargeObject now 1) (allocate_times events))%list.
Proof.
  induction events as [|ev events IH]; intros objects.
  - simpl. now rewrite app_nil_r.
  - change (run objects (ev :: events)) with (run (step objects ev) events).
    rewrite IH. destruct ev as [env url|usage]; cbn [step allocate_times].
    + rewrite requestListener_objects.
      destruct (url =? "/allocate"); [|reflexivity].
      now rewrite <- app_assoc.
    + reflexivity.
Qed.

(** X15: [objects] keeps every allocation: after a run from the empty
    array it holds one object per /allocate request, in request order and
    with the time of the request, two requests in the same millisecond
    included; no other request and no tick of the interval changes it. *)
Theorem objects_holds_every_allocation (events : list Event) :
  run [] events
  = map (fun now => createLargeObject now 1) (allocate_times events) /\
  List.length (run [] events) = List.length (allocate_times events) /\
  (forall objects env url,
     url <> "/allocate" -> step objects (Request env url) = objects).
Proof.
  rewrite run_objects. simpl. split; [reflexivity|]. split.
  - now rewrite length_map.
  - intros objects env url Hne. cbn [step].
    rewrite requestListener_objects.
    now rewrite (proj2 (String.eqb_neq url "/allocate") Hne).
Qed.

(** X16: every object of [objects], in every run, was made by
    [createLargeObject(1)] at the time of an /allocate request and holds
    1048576 characters. *)
Theorem every_object_holds_a_megabyte (events : list Event)
    (o : LargeObject) :
  In o (run [] events) ->
  (exists now, In now (allocate_times events) /\ o = createLargeObject now 1)
  /\ N.of_nat (String.length (data o)) = 1048576%N.
Proof.
  intros Hin. rewrite run_objects in Hin. simpl in Hin.
  apply in_map_iff in Hin. destruct Hin as [t [<- Hin]].
  split; [now exists t|].
  unfold createLargeObject. cbn [data].
  rewrite LeakServer.String_repeat_length. simpl String.length. lia.
Qed.

(** The response that carries the JSON text of [v] with status code 200,
    as [writeHead(200, { 'Content-Type': 'application/json' })] and
    [end(JSON.stringify(v))] leave a fresh response object. *)
Definition ok_json (v : value) : ServerResponse :=
  {| statusCode := 200;
     headers := [("Content-Type", "application/json")];
     headersSent := true;
     body := stringify v;
     finished := true |}.

(** X17: what the listener does on its three routes, as the whole outcome.
    The object sent for /allocate has the members message, memoryMetrics
    and objectCount, the count being the length of [objects] after the new
    object was pushed; the object sent for /status has memoryMetrics and
    objectCount, the length of [objects] as it is; the object sent for
    /buffer has message and memoryMetrics and no other member, and
    [objects] is unchanged. *)
Theorem responses_report_object_count (env : Env) (objects : Objects) :
  requestListener env "/allocate" (objects, fresh)
  = (Js.Normal tt,
     ((objects ++ [createLargeObject (dateNow env) 1])%list,
      ok_json
        (JObject [("message", JString "Allocated 1MB of memory");
                  ("memoryMetrics", memoryMetrics (memoryUsage env));
                  ("objectCount",
                   JInt (Z.of_nat (S (List.length objects))))]))) /\
  requestListener env "/status" (objects, fresh)
  = (Js.Normal tt,
     (objects,
      ok_json
        (JObject [("memoryMetrics", memoryMetrics (memoryUsage env));
                  ("objectCount", JInt (Z.of_nat (List.length objects)))])))
  /\
  requestListener env "/buffer" (objects, fresh)
  = (Js.Normal tt,
     (objects,
      ok_json
        (JObject [("message", JString "Created 1MB buffer");
                  ("memoryMetrics", memoryMetrics (memoryUsage env))]))).
Proof.
  split; [|split]; try reflexivity.
  unfold requestListener, Js.bind, on_res, push, objectCount, Js.modify,
    Js.read, writeHead, end_, ok_json.
  cbn -[stringify Z.of_nat]. rewrite length_app. simpl List.length.
  now rewrite Nat.add_1_r.
Qed.

Lemma every_object_holds_a_megabyte_witness :
  let env := mkEnv 5 (MemoryLeakExample.mkMemoryUsage 0 0 0 0) in
  let o := createLargeObject 5 1 in
  In o (run [] [Request env "/allocate"]) /\
  N.of_nat (String.length (data o)) = 1048576%N.
Proof.
  cbv zeta.
  assert (Hin : In (createLargeObject 5 1)
                  (run []
                     [Request
                        (mkEnv 5 (MemoryLeakExample.mkMemoryUsage 0 0 0 0))
                        "/allocate"]))
    by (left; reflexivity).
  split; [exact Hin|].
  exact (proj2 (every_object_holds_a_megabyte _ _ Hin)).
Defined.

Lemma objects_holds_every_allocation_witness :
  let env := mkEnv 5 (MemoryLeakExample.mkMemoryUsage 0 0 0 0) in
  "/buffer" <> "/allocate" /\
  step [createLargeObject 5 1] (Request env "/buffer")
  = [createLargeObject 5 1] /\
  List.length
    (run [] [Request env "/allocate"; Request env "/buffer";
             Request env "/allocate"]) = 2.
Proof.
  cbv zeta.
  assert (Hne : "/buffer" <> "/allocate") by discriminate.
  split; [exact Hne|]. split.
  - exact (proj2 (proj2 (objects_holds_every_allocation []))
             [createLargeObject 5 1]
             (mkEnv 5 (MemoryLeakExample.mkMemoryUsage 0 0 0 0))
             "/buffer" Hne).
  - rewrite (proj1 (proj2 (objects_holds_every_allocation _))).
    reflexivity.
Defined.

End MemoryMetricsExample.

(** ** [use-of-process-example.js]: configuration and listener *)

Module ProcessExample.

Import Json Http.
Open Scope string_scope.

(** [process.env.NAME || fallback] on a variable that is unset ([None]) or
    set to a string: the empty string is falsy, so it also gives way to the
    fallback. *)
Definition or_else (variable : option string) (fallback : string) : string :=
  match variable with
  | Some s => if s =? "" then fallback else s
  | None => fallback
  end.

(** The variables of [process.env] the example reads. *)
Record ProcessEnv : Type := mkProcessEnv {
  env_PORT : option string;
  env_HOST : option string;
  env_NODE_ENV : option string
}.

(** [PORT] is the string of the variable or the number 3000. *)
Inductive Port : Type :=
| PortString (s : string)
| PortNumber (n : Z).

Definition PORT (e : ProcessEnv) : Port :=
  match env_PORT e with
  | Some s => if s =? "" then PortNumber 3000 else PortString s
  | None => PortNumber 3000
  end.

Definition HOST (e : ProcessEnv) : string := or_else (env_HOST e) "localhost".

Definition NODE_ENV (e : ProcessEnv) : string :=
  or_else (env_NODE_ENV e) "development".

(** The listener given to [http.createServer]; it does not look at the
    request. [isoString] is [new Date().toISOString()]. *)
Definition requestListener (e : ProcessEnv) (isoString : string)
    (url : string) : Js.M ServerResponse unit :=
  writeHead 200 [("Content-Type", "application/json")] ;;
  end_
    (stringify
       (JObject [("message", JString "Server is running");
                 ("environment", JString (NODE_ENV e));
                 ("timestamp", JString isoString)])).

Lemma or_else_nonempty (variable : option string) (fallback : string) :
  fallback <> "" -> or_else variable fallback <> "".
Proof.
  intros Hf. unfold or_else. destruct variable as [s|]; auto.
  destruct (String.eqb_spec s ""); auto.
Qed.

(** X18: each of [NODE_ENV], [HOST] and [PORT] is the environment
    variable as it is when that is set to a non-empty string, and the
    fallback ('development', 'localhost', the number 3000) when it is unset
    or set to the empty string; so none of them is ever the empty
    string. *)
Theorem configuration_falls_back (e : ProcessEnv) :
  ((forall s, env_NODE_ENV e = Some s -> s <> "" -> NODE_ENV e = s) /\
   (env_NODE_ENV e = None \/ env_NODE_ENV e = Some "" ->
    NODE_ENV e = "development")) /\
  ((forall s, env_HOST e = Some s -> s <> "" -> HOST e = s) /\
   (env_HOST e = None \/ env_HOST e = Some "" -> HOST e = "localhost")) /\
  ((forall s, env_PORT e = Some s -> s <> "" -> PORT e = PortString s) /\
   (env_PORT e = None \/ env_PORT e = Some "" -> PORT e = PortNumber 3000))
  /\
  (NODE_ENV e <> "" /\ HOST e <> "" /\ PORT e <> PortString "").
Proof.
  assert (Hset : forall v d s, v = Some s -> s <> "" -> or_else v d = s).
  { intros v d s -> Hne. unfold or_else.
    now rewrite (proj2 (String.eqb_neq s "") Hne). }
  assert (Hunset : forall v d, v = None \/ v = Some "" -> or_else v d = d).
  { intros v d [-> | ->]; reflexivity. }
  split; [|split; [|split]].
  - split; [intros s; apply Hset | apply Hunset].
  - split; [intros s; apply Hset | apply Hunset].
  - unfold PORT. split.
    + intros s -> Hne. now rewrite (proj2 (String.eqb_neq s "") Hne).
    + intros [-> | ->]; reflexivity.
  - repeat split.
    + apply or_else_nonempty. discriminate.
    + apply or_else_nonempty. discriminate.
    + unfold PORT. destruct (env_PORT e) as [s|]; [|discriminate].
      destruct (String.eqb_spec s ""); congruence.
Qed.


Lemma configuration_falls_back_witness :
  let e := mkProcessEnv (Some "8080") (Some "") (Some "production") in
  (env_NODE_ENV e = Some "production" /\ "production" <> "") /\
  NODE_ENV e = "production" /\
  (env_HOST e = None \/ env_HOST e = Some "") /\
  HOST e = "localhost" /\
  (env_PORT e = Some "8080" /\ "8080" <> "") /\
  PORT e = PortString "8080".
Proof.
  cbv zeta.
  destruct (configuration_falls_back
              (mkProcessEnv (Some "8080") (Some "") (Some "production")))
    as [[Hnode _] [[_ Hhost] [[Hport _] _]]].
  assert (Hn : "production" <> "") by discriminate.
  assert (Hp : "8080" <> "") by discriminate.
  assert (Hh : env_HOST
                 (mkProcessEnv (Some "8080") (Some "") (Some "production"))
               = None \/
               env_HOST
                 (mkProcessEnv (Some "8080") (Some "") (Some "production"))
               = Some "") by (right; reflexivity).
  split; [split; [reflexivity | exact Hn]|].
  split; [exact (Hnode "production" eq_refl Hn)|].
  split; [exact Hh|].
  split; [exact (Hhost Hh)|].
  split; [split; [reflexivity | exact Hp]|].
  exact (Hport "8080" eq_refl Hp).
Defined.


End ProcessExample.

(** ** [gracefulShutdown], as the routed server and
    [use-of-process-example.js] define it *)

Module GracefulShutdown.

(** What makes the process call [gracefulShutdown]. *)
Inductive Trigger : Type :=
| SIGTERM
| SIGINT
| uncaughtException
| unhandledRejection.

(** The callbacks that wait and the exit code once the process has
    exited: [closeCallbacks] counts the callbacks given to [server.close]
    that wait for the server to close, [timers] holds the times at which
    the callbacks given to [setTimeout] are due. *)
Record Process : Type := mkProcess {
  closeCallbacks : nat;
  timers : list Z;
  exitCode : option Z
}.

Definition start : Process :=
  {| closeCallbacks := 0; timers := []; exitCode := None |}.

(** [gracefulShutdown(signal)], called at time [now]: [server.close] with a
    callback that exits with code 0, and a timer of 10000 ms whose callback
    exits with code 1. *)
Definition gracefulShutdown (now : Z) (p : Process) : Process :=
  {| closeCallbacks := S (closeCallbacks p);
     timers := timers p ++ [(now + 10000)%Z];
     exitCode := exitCode p |}.

(** What the event loop delivers at time [now]: a trigger, the server
    having closed, or the timers that are due. *)
Inductive Event : Type :=
| Triggered (now : Z) (t : Trigger)
| ServerClosed (now : Z)
| TimersDue (now : Z).

Definition exit (code : Z) (p : Process) : Process :=
  {| closeCallbacks := closeCallbacks p; timers := timers p;
     exitCode := Some code |}.

(** One turn of the event loop. After [process.exit] nothing runs. *)
Definition step (p : Process) (ev : Event) : Process :=
  match exitCode p with
  | Some _ => p
  | None =>
      match ev with
      | Triggered now _ => gracefulShutdown now p
      | ServerClosed _ =>
          if closeCallbacks p =? 0 then p else exit 0 p
      | TimersDue now =>
          if existsb (fun due => (due <=? now)%Z) (timers p)
          then exit 1 p else p
      end
  end.

Definition run (p : Process) (events : list Event) : Process :=
  fold_left step events p.

Lemma shutdown_run_cons (p : Process) (ev : Event) (events : list Event) :
  run p (ev :: events) = run (step p ev) events.
Proof. reflexivity. Qed.

Lemma shutdown_run_app (p : Process) (a b : list Event) :
  run p (a ++ b) = run (run p a) b.
Proof. unfold run. apply fold_left_app. Qed.

Lemma shutdown_run_exited (events : list Event) (p : Process) (code : Z) :
  exitCode p = Some code -> run p events = p.
Proof.
  intros Hex. induction events as [|ev events IH]; [reflexivity|].
  rewrite shutdown_run_cons. unfold step at 1. rewrite Hex. exact IH.
Qed.

(** Every timer of a run was set by a trigger of the run, 10000 ms after
    it; a callback of [server.close] waits only after a trigger. *)
Definition from_triggers (events : list Event) (p : Process) : Prop :=
  (forall due, In due (timers p) ->
     exists t trigger,
       In (Triggered t trigger) events /\ due = (t + 10000)%Z) /\
  (closeCallbacks p <> 0 -> exists t trigger, In (Triggered t trigger) events).

Lemma from_triggers_more (seen : list Event) (ev : Event) (p : Process) :
  from_triggers seen p -> from_triggers (seen ++ [ev]) p.
Proof.
  intros [Ht Hc]. split.
  - intros due Hin. destruct (Ht due Hin) as [t [trigger [Hin' Hd]]].
    exists t, trigger. split; auto. apply in_or_app. now left.
  - intros Hn. destruct (Hc Hn) as [t [trigger Hin]].
    exists t, trigger. apply in_or_app. now left.
Qed.

Lemma from_triggers_step (seen : list Event) (ev : Event) (p : Process) :
  from_triggers seen p -> from_triggers (seen ++ [ev]) (step p ev).
Proof.
  intros Hp. unfold step. destruct (exitCode p) as [code|].
  { now apply from_triggers_more. }
  destruct ev as [now trigger|now|now].
  - destruct Hp as [Ht Hc]. split.
    + cbn [timers gracefulShutdown]. intros due Hin.
      apply in_app_or in Hin. destruct Hin as [Hin|[<-|[]]].
      * destruct (Ht due Hin) as [t [tr [Hin' Hd]]].
        exists t, tr. split; auto. apply in_or_app. now left.
      * exists now, trigger. split; auto.
        apply in_or_app. right. now left.
    + intros _. exists now, trigger. apply in_or_app. right. now left.
  - destruct (closeCallbacks p =? 0); now apply from_triggers_more.
  - destruct (existsb _ _); now apply from_triggers_more.
Qed.

(** How a run that has exited came to exit. *)
Definition exit_cause (events : list Event) (code : Z) : Prop :=
  (code = 0%Z /\
   exists t trigger now,
     In (Triggered t trigger) events /\ In (ServerClosed now) events) \/
  (code = 1%Z /\
   exists t trigger now,
     In (Triggered t trigger) events /\ In (TimersDue now) events /\
     (t + 10000 <= now)%Z).

Lemma run_exit_cause (events : list Event) :
  forall (seen : list Event) (p : Process),
    from_triggers seen p ->
    exitCode p = None ->
    forall code,
      exitCode (run p events) = Some code ->
      exit_cause (seen ++ events) code.
Proof.
  induction events as [|ev events IH]; intros seen p Hp Hrun code Hex.
  - simpl in Hex. congruence.
  - rewrite shutdown_run_cons in Hex.
    replace (seen ++ ev :: events) with ((seen ++ [ev]) ++ events)
      by (rewrite <- app_assoc; reflexivity).
    pose proof (from_triggers_step seen ev p Hp) as Hp'.
    destruct (exitCode (step p ev)) as [code'|] eqn:Hstep.
    + rewrite (shutdown_run_exited events _ code' Hstep) in Hex.
      assert (code' = code) by congruence. subst code'.
      unfold step in Hstep. rewrite Hrun in Hstep.
      destruct Hp as [Ht Hc].
      destruct ev as [now trigger|now|now].
      * cbn in Hstep. congruence.
      * destruct (Nat.eqb_spec (closeCallbacks p) 0) as [Hz|Hnz];
          [congruence|].
        cbn in Hstep. inversion Hstep; subst code.
        destruct (Hc Hnz) as [t [trigger Hin]].
        left. split; [reflexivity|]. exists t, trigger, now. split.
        -- apply in_or_app. left. apply in_or_app. now left.
        -- apply in_or_app. left. apply in_or_app. right. now left.
      * destruct (existsb (fun due => (due <=? now)%Z) (timers p)) eqn:Hdue;
          [|congruence].
        cbn in Hstep. inversion Hstep; subst code.
        apply existsb_exists in Hdue. destruct Hdue as [due [Hin Hle]].
        apply Z.leb_le in Hle.
        destruct (Ht due Hin) as [t [trigger [Hin' Hd]]].
        right. split; [reflexivity|]. exists t, trigger, now. repeat split.
        -- apply in_or_app. left. apply in_or_app. now left.
        -- apply in_or_app. left. apply in_or_app. right. now left.
        -- lia.
    + now apply (IH (seen ++ [ev]) (step p ev)).
Qed.

Lemma exit_cause_of_run (events : list Event) (code : Z) :
  exitCode (run start events) = Some code -> exit_cause events code.
Proof.
  intros Hex. apply (run_exit_cause events [] start); auto.
  split; [intros due [] | intros Hn; now elim Hn].
Qed.

Lemma exit_cause_codes (events : list Event) (code : Z) :
  exitCode (run start events) = Some code -> code = 0%Z \/ code = 1%Z.
Proof.
  intros Hex. destruct (exit_cause_of_run events code Hex) as [[-> _]|[-> _]];
    auto.
Qed.

(** X20: the process exits only through [gracefulShutdown]. A run that has
    exited with code 0 saw a trigger and the server closing; a run that has
    exited with code 1 saw a trigger and its timers coming due at least
    10000 ms after that trigger; there is no other exit code. *)
Theorem exit_only_after_trigger (events : list Event) (code : Z) :
  exitCode (run start events) = Some code ->
  exit_cause events code /\ (code = 0%Z \/ code = 1%Z).
Proof.
  intros Hex. split.
  - now apply exit_cause_of_run.
  - now apply (exit_cause_codes events).
Qed.

Lemma timers_kept (events : list Event) :
  forall (p : Process) (due : Z),
    In due (timers p) -> In due (timers (run p events)).
Proof.
  induction events as [|ev events IH]; intros p due Hin; auto.
  rewrite shutdown_run_cons. apply IH. unfold step.
  destruct (exitCode p); auto.
  destruct ev as [now trigger|now|now].
  - cbn. apply in_or_app. now left.
  - now destruct (closeCallbacks p =? 0).
  - now destruct (existsb _ _).
Qed.

(** X21: a shutdown does not hang. After a trigger at time [t], once the
    timers come due at a time of at least [t + 10000] the process has
    exited, with code 0 or 1, whatever else happened in between and
    whether or not the server ever closed. *)
Theorem shutdown_is_forced_after_ten_seconds (before between : list Event)
    (t now : Z) (trigger : Trigger) :
  (t + 10000 <= now)%Z ->
  let p :=
    run start (before ++ [Triggered t trigger] ++ between ++ [TimersDue now])
  in
  exitCode p = Some 0%Z \/ exitCode p = Some 1%Z.
Proof.
  intros Hlate p.
  assert (Hcodes : forall code, exitCode p = Some code ->
                                code = 0%Z \/ code = 1%Z).
  { intros code Hex. unfold p in Hex.
    exact (exit_cause_codes _ _ Hex). }
  destruct (exitCode p) as [code|] eqn:Hex.
  { destruct (Hcodes code eq_refl) as [-> | ->]; auto. }
  exfalso. unfold p in Hex. rewrite !shutdown_run_app in Hex.
  set (p0 := run start before) in Hex.
  set (q := run (run p0 [Triggered t trigger]) between) in Hex.
  change (run q [TimersDue now]) with (step q (TimersDue now)) in Hex.
  unfold step in Hex.
  destruct (exitCode q) as [c|] eqn:Hq; [congruence|].
  assert (Hin : In (t + 10000)%Z (timers q)).
  { apply (timers_kept between).
    change (run p0 [Triggered t trigger])
      with (step p0 (Triggered t trigger)).
    unfold step. destruct (exitCode p0) as [c|] eqn:Hb.
    - exfalso. unfold q in Hq.
      change (run p0 [Triggered t trigger])
        with (step p0 (Triggered t trigger)) in Hq.
      assert (Hs : step p0 (Triggered t trigger) = p0)
        by (unfold step; now rewrite Hb).
      rewrite Hs, (shutdown_run_exited between p0 c Hb) in Hq. congruence.
    - cbn. apply in_or_app. right. now left. }
  assert (Hdue : existsb (fun due => (due <=? now)%Z) (timers q) = true).
  { apply existsb_exists. exists (t + 10000)%Z. split; auto.
    now apply Z.leb_le. }
  rewrite Hdue in Hex. cbn in Hex. discriminate.
Qed.

Lemma exit_only_after_trigger_witness :
  let events := [Triggered 0 SIGTERM; TimersDue 5000; TimersDue 10000] in
  exitCode (run start events) = Some 1%Z /\ exit_cause events 1.
Proof.
  cbv zeta.
  assert (Hex : exitCode
                  (run start
                     [Triggered 0 SIGTERM; TimersDue 5000; TimersDue 10000])
                = Some 1%Z) by reflexivity.
  split; [exact Hex|].
  exact (proj1 (exit_only_after_trigger _ _ Hex)).
Defined.

Lemma shutdown_is_forced_after_ten_seconds_witness :
  (0 + 10000 <= 10000)%Z /\
  exitCode
    (run start
       ([] ++ [Triggered 0 uncaughtException]
           ++ [TimersDue 9999; Triggered 500 SIGINT] ++ [TimersDue 10000]))
  = Some 1%Z.
Proof.
  assert (Hlate : (0 + 10000 <= 10000)%Z) by lia.
  split; [exact Hlate|].
  destruct (shutdown_is_forced_after_ten_seconds []
              [TimersDue 9999; Triggered 500 SIGINT] 0 10000
              uncaughtException Hlate) as [H0|H1].
  - discriminate H0.
  - exact H1.
Defined.

End GracefulShutdown.
